(** * Endpoint and NamedEndpoint of pokeapi-typescript

    A shallow embedding of [src/classes/Endpoint.ts] (the generic resource
    endpoint) and of its name-aware extension [NamedEndpoint], with the
    properties of their caching behaviour.

    The classes are mutable objects whose methods await a remote transport.
    A method is embedded as a function from the state of the object and the
    log of the requests issued so far to an outcome (a value or a thrown
    error) and the state afterwards.  An exception does not roll anything
    back: the state returned next to a thrown error is the state the object
    is left in. *)

From Stdlib Require Import Ascii String ZArith Lia.
From stdpp Require Import base option countable strings pretty list gmap fin_maps.

Local Open Scope string_scope.
Local Open Scope Z_scope.

(** ** JavaScript values *)

(** Scalar values.  Numbers are the integers (identifiers, counts, limits
    and offsets are integers); fractions, NaN and the infinities are not
    represented. *)
Inductive prim :=
| PUndef
| PNull
| PBool (b : bool)
| PNum (n : Z)
| PStr (s : string).

(** A value decoded from a JSON body.  The endpoint code reads the scalar
    properties [id], [name], [count], [next] and [previous] of an object, and
    its array property [results], whose elements it never inspects; an object
    is represented by its scalar properties and that array ([None] when the
    object has no [results]).  A property that holds a nested object is not
    represented. *)
#[warnings="-register-all"]
Inductive jsval :=
| VPrim (p : prim)
| VObj (props : gmap string prim) (elems : option (list jsval)).

#[global] Instance prim_eq_dec : EqDecision prim.
Proof. solve_decision. Defined.

Definition prim_encode (p : prim) : unit + (unit + (bool + (Z + string))) :=
  match p with
  | PUndef => inl tt
  | PNull => inr (inl tt)
  | PBool b => inr (inr (inl b))
  | PNum n => inr (inr (inr (inl n)))
  | PStr s => inr (inr (inr (inr s)))
  end.

Definition prim_decode (x : unit + (unit + (bool + (Z + string)))) : prim :=
  match x with
  | inl _ => PUndef
  | inr (inl _) => PNull
  | inr (inr (inl b)) => PBool b
  | inr (inr (inr (inl n))) => PNum n
  | inr (inr (inr (inr s))) => PStr s
  end.

#[global] Instance prim_countable : Countable prim.
Proof.
  refine (inj_countable' prim_encode prim_decode _).
  intros []; reflexivity.
Defined.

Inductive error :=
| TypeError
| TransportFailure (status : Z)
| DecodeFailure.

(** Settled result of an awaited promise or of a synchronous call. *)
Inductive outcome (A : Type) :=
| Ok (a : A)
| Throw (e : error).
Arguments Ok {A} a.
Arguments Throw {A} e.

(** [ToBoolean]: what [if (v)] and [v || w] test. *)
Definition truthy (v : jsval) : bool :=
  match v with
  | VObj _ _ => true
  | VPrim PUndef | VPrim PNull => false
  | VPrim (PBool b) => b
  | VPrim (PNum n) => negb (Z.eqb n 0)
  | VPrim (PStr s) => negb (String.eqb s "")
  end.

(** [v.key] for a scalar property: a [TypeError] on [undefined] and [null],
    [undefined] on the other scalars and on an object without the property. *)
Definition get_prop (v : jsval) (key : string) : outcome prim :=
  match v with
  | VPrim PUndef | VPrim PNull => Throw TypeError
  | VPrim _ => Ok PUndef
  | VObj props _ => Ok (default PUndef (props !! key))
  end.

(** [v.results]. *)
Definition get_results (v : jsval) : outcome (option (list jsval)) :=
  match v with
  | VPrim PUndef | VPrim PNull => Throw TypeError
  | VPrim _ => Ok None
  | VObj _ elems => Ok elems
  end.

(** [`${p}`]: the string a template literal renders a scalar as. *)
Definition to_string (p : prim) : string :=
  match p with
  | PUndef => "undefined"
  | PNull => "null"
  | PBool true => "true"
  | PBool false => "false"
  | PNum n => pretty n
  | PStr s => s
  end.

(** Text of ASCII characters only.  Names and resource categories are
    modelled as such text; a string with a character outside ASCII is not
    represented, and the statements about the case of a name are stated for
    [ascii_text]. *)
Fixpoint ascii_text (s : string) : bool :=
  match s with
  | EmptyString => true
  | String c s' => (Nat.ltb (nat_of_ascii c) 128 && ascii_text s')%bool
  end.

(** [String.prototype.toLowerCase] on ASCII text: the letters A to Z are
    mapped to a to z, every other character is kept.  On [ascii_text] this
    is what the built-in does; the built-in also maps letters outside ASCII,
    which are not represented. *)
Definition lower_ascii (c : ascii) : ascii :=
  let n := nat_of_ascii c in
  if (Nat.leb 65 n && Nat.leb n 90)%bool then ascii_of_nat (n + 32) else c.

Fixpoint toLowerCase (s : string) : string :=
  match s with
  | EmptyString => EmptyString
  | String c s' => String (lower_ascii c) (toLowerCase s')
  end.

(** [String.prototype.toUpperCase] on ASCII text: the letters a to z are
    mapped to A to Z, every other character is kept.  On [ascii_text] this
    is what the built-in does. *)
Fixpoint toUpperCase (s : string) : string :=
  match s with
  | EmptyString => EmptyString
  | String c s' =>
      let n := nat_of_ascii c in
      String (if (Nat.leb 97 n && Nat.leb n 122)%bool then ascii_of_nat (n - 32) else c)
             (toUpperCase s')
  end.

(** [Array.prototype.slice(start, end)] on integer bounds: a negative bound
    counts from the end of the array, both bounds are clamped to the array,
    and the result is empty when the end is not after the start. *)
Definition slice {A : Type} (l : list A) (start end_ : Z) : list A :=
  let len := Z.of_nat (length l) in
  let k := if start <? 0 then Z.max (len + start) 0 else Z.min start len in
  let final := if end_ <? 0 then Z.max (len + end_) 0 else Z.min end_ len in
  take (Z.to_nat (final - k)) (drop (Z.to_nat k) l).

(** ** Objects, the request log and the transport *)

(** What the transport settles a request with: the decoded body, or the
    failure of the request or of the decoding. *)
Inductive response :=
| Resolve (body : jsval)
| Reject (e : error).

(** The remote side is any function from the requests issued so far and the
    URI requested now to a response: the answer to a URI may change from one
    request to the next. *)
Definition transport := list string → string → response.

(** An object ([this]) together with the URIs requested so far, oldest
    first. *)
Record world (S : Type) := World { this : S; log : list string }.
Arguments World {S} this log.
Arguments this {S} w.
Arguments log {S} w.

(** A method body: from the world before to its outcome and the world
    after.  No mutation is undone when the outcome is [Throw]. *)
Definition M (S A : Type) := world S → outcome A * world S.

Definition ret {S A} (a : A) : M S A := λ w, (Ok a, w).

Definition throw {S A} (e : error) : M S A := λ w, (Throw e, w).

Definition bind {S A B} (m : M S A) (k : A → M S B) : M S B :=
  λ w, match m w with
       | (Ok a, w') => k a w'
       | (Throw e, w') => (Throw e, w')
       end.

Notation "x <- m ;; k" := (bind m (λ x, k))
  (at level 100, m at next level, right associativity).

(** Reading a field of [this]. *)
Definition read {S A} (f : S → A) : M S A := λ w, (Ok (f (this w)), w).

(** Assigning to [this]. *)
Definition modify {S} (f : S → S) : M S unit :=
  λ w, (Ok tt, World (f (this w)) (log w)).

(** A synchronous computation that may throw. *)
Definition lift {S A} (o : outcome A) : M S A := λ w, (o, w).

(** [await fetch(uri).then(res => res.json())]. *)
Definition request {S} (net : transport) (uri : string) : M S jsval :=
  λ w, let w' := World (this w) (log w ++ [uri]) in
       match net (log w) uri with
       | Resolve body => (Ok body, w')
       | Reject e => (Throw e, w')
       end.

Definition BASE_URI : string := "https://pokeapi.co/api/v2".

(** [`${BASE_URI}/${this.resource}/${param}`] *)
Definition resource_uri (r : string) (param : prim) : string :=
  BASE_URI ++ "/" ++ r ++ "/" ++ to_string param.

(** [`${BASE_URI}/${this.resource}?${params}`], where [params] is
    [new URLSearchParams({ limit: `${limit}`, offset: `${offset}` })]. *)
Definition page_uri (r : string) (limit offset : Z) : string :=
  BASE_URI ++ "/" ++ r ++ "?"
    ++ "limit=" ++ to_string (PNum limit) ++ "&offset=" ++ to_string (PNum offset).

(** [`${BASE_URI}/${this.resource}?limit=${count}`] *)
Definition limit_uri (r : string) (count : prim) : string :=
  BASE_URI ++ "/" ++ r ++ "?limit=" ++ to_string count.

(** ** The listing container *)

(** Modelled from the spec: the classes [ApiResourceList] and
    [NamedApiResourceList], which [Endpoint.ts] imports and whose source is
    not at hand.  A listing holds [count], [next], [previous] and [results]
    and a reference to the endpoint that owns it; it is constructed from an
    object with these four properties, which are copied as they are.  The
    owner is recorded by the resource category of the endpoint. *)
Record ApiResourceList := {
  count : prim;
  next : prim;
  previous : prim;
  results : option (list jsval);
  endpoint : string
}.

(** Modelled from the spec: the constructor of [ApiResourceList], which
    reads the four properties of [data]; reading a property of [undefined]
    or [null] throws. *)
Definition new_ApiResourceList (data : jsval) (owner : string)
  : outcome ApiResourceList :=
  match get_prop data "count", get_prop data "next",
        get_prop data "previous", get_results data with
  | Ok c, Ok n, Ok p, Ok rs =>
      Ok {| count := c; next := n; previous := p; results := rs; endpoint := owner |}
  | _, _, _, _ => Throw TypeError
  end.

(** The object literal [{ count, next, previous, results }]. *)
Definition listing_literal (c n p : prim) (rs : list jsval) : jsval :=
  VObj (<["count" := c]> (<["next" := n]> (<["previous" := p]> ∅))) (Some rs).

(** ** Endpoint *)

(** [resolve] is written once, in [Endpoint], and calls [this.get] and
    [this.fetch]: on a [NamedEndpoint] these are the overriding methods. *)
Definition resolve_with {S P} (get : P → M S jsval) (fetch : P → bool → M S jsval)
    (param : P) : M S jsval :=
  v <- get param ;;
  if truthy v then ret v else fetch param true.

Module Endpoint.

Record t := {
  resource : string;
  _list : option ApiResourceList;
  cache : gmap prim jsval
}.

Definition new (resource : string) : t :=
  {| resource := resource; _list := None; cache := ∅ |}.

Definition set_cache (c : gmap prim jsval) (e : t) : t :=
  {| resource := resource e; _list := _list e; cache := c |}.

Definition set_list (l : ApiResourceList) (e : t) : t :=
  {| resource := resource e; _list := Some l; cache := cache e |}.

(** [this.cache.get(key)]: [undefined] when the map has no such key. *)
Definition cache_get (key : prim) (e : t) : jsval :=
  default (VPrim PUndef) (cache e !! key).

Section methods.
Variable net : transport.

Definition get (param : Z) : M t jsval :=
  read (cache_get (PNum param)).

Definition _cache (data : jsval) : M t unit :=
  id <- lift (get_prop data "id") ;;
  modify (λ e, set_cache (<[id := data]> (cache e)) e).

Definition fetch (param : Z) (cache : bool) : M t jsval :=
  r <- read resource ;;
  data <- request net (resource_uri r (PNum param)) ;;
  _ <- _cache data ;;
  ret data.

Definition resolve (param : Z) : M t jsval :=
  resolve_with get fetch param.

Definition list (limit offset : Z) : M t ApiResourceList :=
  snapshot <- read _list ;;
  r <- read resource ;;
  match snapshot with
  | Some l =>
      match results l with
      | Some rs =>
          lift (new_ApiResourceList
                  (listing_literal (count l) (next l) (previous l)
                                   (slice rs offset limit)) r)
      | None => throw TypeError
      end
  | None =>
      data <- request net (page_uri r limit offset) ;;
      lift (new_ApiResourceList data r)
  end.

Definition listAll (cache : bool) : M t ApiResourceList :=
  snapshot <- read _list ;;
  match snapshot with
  | Some l => ret l
  | None =>
      r <- read resource ;;
      body <- request net (limit_uri r (PNum 1)) ;;
      count <- lift (get_prop body "count") ;;
      data <- request net (limit_uri r count) ;;
      l <- lift (new_ApiResourceList data r) ;;
      _ <- (if cache then modify (set_list l) else ret tt) ;;
      ret l
  end.

End methods.

Definition default_limit : Z := 20.
Definition default_offset : Z := 0.
Definition default_cache : bool := true.

End Endpoint.

(** ** NamedEndpoint *)

(** [NamedEndpointParam = EndpointParam | string]; [typeof param] tells the
    two apart. *)
Inductive NamedEndpointParam :=
| Id (n : Z)
| Name (s : string).

(** A parameter that is an id, or a name of ASCII characters. *)
Definition ascii_param (param : NamedEndpointParam) : bool :=
  match param with
  | Id _ => true
  | Name s => ascii_text s
  end.

Module NamedEndpoint.

(** The fields inherited from [Endpoint], and the name index.  The index
    is declared [Map<string, number>], but what is stored are
    [data.name] and [data.id] as decoded, whatever they are. *)
Record t := {
  super : Endpoint.t;
  _nameMap : gmap prim prim
}.

Definition new (resource : string) : t :=
  {| super := Endpoint.new resource; _nameMap := ∅ |}.

Definition resource (e : t) : string := Endpoint.resource (super e).
Definition _list (e : t) : option ApiResourceList := Endpoint._list (super e).
Definition cache (e : t) : gmap prim jsval := Endpoint.cache (super e).

Definition set_cache (c : gmap prim jsval) (e : t) : t :=
  {| super := Endpoint.set_cache c (super e); _nameMap := _nameMap e |}.

Definition set_list (l : ApiResourceList) (e : t) : t :=
  {| super := Endpoint.set_list l (super e); _nameMap := _nameMap e |}.

Definition set_nameMap (m : gmap prim prim) (e : t) : t :=
  {| super := super e; _nameMap := m |}.

Definition cache_get (key : prim) (e : t) : jsval :=
  Endpoint.cache_get key (super e).

(** [this._nameMap.get(key)]. *)
Definition nameMap_get (key : prim) (e : t) : prim :=
  default PUndef (_nameMap e !! key).

Section methods.
Variable net : transport.

Definition get (param : NamedEndpointParam) : M t jsval :=
  read (λ e, cache_get (match param with
                        | Id n => PNum n
                        | Name s => nameMap_get (PStr (toLowerCase s)) e
                        end) e).

Definition _cache (data : jsval) : M t unit :=
  id <- lift (get_prop data "id") ;;
  _ <- modify (λ e, set_cache (<[id := data]> (cache e)) e) ;;
  name <- lift (get_prop data "name") ;;
  id' <- lift (get_prop data "id") ;;
  modify (λ e, set_nameMap (<[name := id']> (_nameMap e)) e).

Definition fetch (param : NamedEndpointParam) (cache : bool) : M t jsval :=
  let param := match param with
               | Name s => PStr (toLowerCase s)
               | Id n => PNum n
               end in
  r <- read resource ;;
  data <- request net (resource_uri r param) ;;
  _ <- _cache data ;;
  ret data.

(** Inherited; its parameter is declared [EndpointParam]. *)
Definition resolve (param : Z) : M t jsval :=
  resolve_with get fetch (Id param).

Definition list (limit offset : Z) : M t ApiResourceList :=
  snapshot <- read _list ;;
  r <- read resource ;;
  match snapshot with
  | Some l =>
      match results l with
      | Some rs =>
          lift (new_ApiResourceList
                  (listing_literal (count l) (next l) (previous l)
                                   (slice rs offset limit)) r)
      | None => throw TypeError
      end
  | None =>
      data <- request net (page_uri r limit offset) ;;
      lift (new_ApiResourceList data r)
  end.

Definition listAll (cache : bool) : M t ApiResourceList :=
  snapshot <- read _list ;;
  match snapshot with
  | Some l => ret l
  | None =>
      r <- read resource ;;
      body <- request net (limit_uri r (PNum 1)) ;;
      count <- lift (get_prop body "count") ;;
      data <- request net (limit_uri r count) ;;
      l <- lift (new_ApiResourceList data r) ;;
      _ <- (if cache then modify (set_list l) else ret tt) ;;
      ret l
  end.

End methods.

End NamedEndpoint.

(** ** Sequences of calls *)

(** The calls a client can make on an endpoint.  [CCache] is the public
    method [_cache]. *)
Inductive call (P : Type) :=
| CGet (param : P)
| CResolve (param : Z)
| CFetch (param : P) (cache : bool)
| CList (limit offset : Z)
| CListAll (cache : bool)
| CCache (data : jsval).
Arguments CGet {P} param.
Arguments CResolve {P} param.
Arguments CFetch {P} param cache.
Arguments CList {P} limit offset.
Arguments CListAll {P} cache.
Arguments CCache {P} data.

(** The calls that may write to the cache. *)
Definition writes {P} (c : call P) : bool :=
  match c with
  | CResolve _ | CFetch _ _ | CCache _ => true
  | CGet _ | CList _ _ | CListAll _ => false
  end.

(** Running a method for its effect: what remains is whether it threw. *)
Definition void {S A} (m : M S A) : M S unit := x <- m ;; ret tt.

Definition after {S A} (m : M S A) (w : world S) : world S := snd (m w).

Definition result {S A} (m : M S A) (w : world S) : outcome A := fst (m w).

Module EndpointCalls.

Definition exec (net : transport) (c : call Z) : M Endpoint.t unit :=
  match c with
  | CGet param => void (Endpoint.get param)
  | CResolve param => void (Endpoint.resolve net param)
  | CFetch param flag => void (Endpoint.fetch net param flag)
  | CList limit offset => void (Endpoint.list net limit offset)
  | CListAll flag => void (Endpoint.listAll net flag)
  | CCache data => Endpoint._cache data
  end.

(** The world after a sequence of calls, each awaited before the next;
    a call that throws does not stop the client from making the next. *)
Fixpoint run (net : transport) (cs : Datatypes.list (call Z)) (w : world Endpoint.t)
  : world Endpoint.t :=
  match cs with
  | [] => w
  | c :: cs' => run net cs' (after (exec net c) w)
  end.

Definition initial (resource : string) : world Endpoint.t :=
  World (Endpoint.new resource) [].

Inductive reachable (net : transport) : world Endpoint.t → Prop :=
| reachable_new resource : reachable net (initial resource)
| reachable_call c w : reachable net w → reachable net (after (exec net c) w).

(** Every cached value sits under the key that is its own [id]. *)
Definition keyed_by_id (w : world Endpoint.t) : Prop :=
  ∀ k v, Endpoint.cache (this w) !! k = Some v → get_prop v "id" = Ok k.

End EndpointCalls.

Module NamedEndpointCalls.

(** The state a successful [_cache(data)] leaves. *)
Definition cached (data : jsval) (id name : prim) (e : NamedEndpoint.t)
  : NamedEndpoint.t :=
  NamedEndpoint.set_nameMap (<[name := id]> (NamedEndpoint._nameMap e))
    (NamedEndpoint.set_cache (<[id := data]> (NamedEndpoint.cache e)) e).

(** The path segment [fetch] requests for a parameter. *)
Definition fetch_param (param : NamedEndpointParam) : prim :=
  match param with
  | Name s => PStr (toLowerCase s)
  | Id n => PNum n
  end.

(** The cache key [get] looks a parameter up under. *)
Definition get_key (param : NamedEndpointParam) (e : NamedEndpoint.t) : prim :=
  match param with
  | Id n => PNum n
  | Name s => NamedEndpoint.nameMap_get (PStr (toLowerCase s)) e
  end.

(** An [Endpoint] method body run on the inherited fields of a
    [NamedEndpoint], the name index left as it is. *)
Definition on_super {A} (m : M Endpoint.t A) : M NamedEndpoint.t A :=
  λ w, let r := m (World (NamedEndpoint.super (this w)) (log w)) in
       (fst r,
        World {| NamedEndpoint.super := this (snd r);
                 NamedEndpoint._nameMap := NamedEndpoint._nameMap (this w) |}
              (log (snd r))).

Definition exec (net : transport) (c : call NamedEndpointParam) : M NamedEndpoint.t unit :=
  match c with
  | CGet param => void (NamedEndpoint.get param)
  | CResolve param => void (NamedEndpoint.resolve net param)
  | CFetch param flag => void (NamedEndpoint.fetch net param flag)
  | CList limit offset => void (NamedEndpoint.list net limit offset)
  | CListAll flag => void (NamedEndpoint.listAll net flag)
  | CCache data => NamedEndpoint._cache data
  end.

Fixpoint run (net : transport) (cs : Datatypes.list (call NamedEndpointParam))
    (w : world NamedEndpoint.t) : world NamedEndpoint.t :=
  match cs with
  | [] => w
  | c :: cs' => run net cs' (after (exec net c) w)
  end.

Definition initial (resource : string) : world NamedEndpoint.t :=
  World (NamedEndpoint.new resource) [].

Inductive reachable (net : transport) : world NamedEndpoint.t → Prop :=
| reachable_new resource : reachable net (initial resource)
| reachable_call c w : reachable net w → reachable net (after (exec net c) w).

(** Every cached value sits under the key that is its own [id]. *)
Definition keyed_by_id (w : world NamedEndpoint.t) : Prop :=
  ∀ k v, NamedEndpoint.cache (this w) !! k = Some v → get_prop v "id" = Ok k.

(** Every cached body with a name is indexed under that name in lower
    case. *)
Definition names_indexed (e : NamedEndpoint.t) : Prop :=
  ∀ k r nm, NamedEndpoint.cache e !! k = Some r →
            get_prop r "name" = Ok (PStr nm) →
            NamedEndpoint._nameMap e !! PStr (toLowerCase nm) = Some k.

End NamedEndpointCalls.

(** ** Scenarios *)

(** A JSON object with scalar properties only. *)
Definition obj (kvs : Datatypes.list (string * prim)) : jsval :=
  VObj (list_to_map kvs) None.

(** A page of a listing. *)
Definition page (c : Z) (nx pv : prim) (items : Datatypes.list jsval) : jsval :=
  VObj (list_to_map [("count", PNum c); ("next", nx); ("previous", pv)]) (Some items).

Definition cheri : jsval := obj [("id", PNum 1); ("name", PStr "cheri")].

Definition item (nm : string) : jsval := obj [("name", PStr nm)].

Definition berries : Datatypes.list jsval := [item "cheri"; item "chesto"; item "pecha"].

(** The category [berry]: resource 1 is [cheri], the listing has three
    items, and everything else is not found. *)
Definition berry_net : transport := λ _ uri,
  if String.eqb uri "https://pokeapi.co/api/v2/berry/1" then Resolve cheri
  else if String.eqb uri "https://pokeapi.co/api/v2/berry/cheri" then Resolve cheri
  else if String.eqb uri "https://pokeapi.co/api/v2/berry?limit=1" then
    Resolve (page 3 (PStr "https://pokeapi.co/api/v2/berry?offset=1&limit=1") PNull
                  [item "cheri"])
  else if String.eqb uri "https://pokeapi.co/api/v2/berry?limit=3" then
    Resolve (page 3 PNull PNull berries)
  else Reject (TransportFailure 404).


(** The same category when the remote side fails while the full listing
    is read: the count is served, the listing of that many items is not. *)
Definition flaky_net : transport := λ _ uri,
  if String.eqb uri "https://pokeapi.co/api/v2/berry?limit=1" then
    Resolve (page 3 PNull PNull [item "cheri"])
  else Reject (TransportFailure 503).

(** The listing of the three berries, owned by the [berry] endpoint. *)
Definition berry_listing : ApiResourceList :=
  {| count := PNum 3; next := PNull; previous := PNull;
     results := Some berries; endpoint := "berry" |}.

(** An endpoint that holds the berry listing as its snapshot. *)
Definition berry_with_snapshot : world Endpoint.t :=
  World {| Endpoint.resource := "berry"; Endpoint._list := Some berry_listing;
           Endpoint.cache := ∅ |} [].

(** A cache that holds the number [0] under the id 1: a state that no
    sequence of calls reaches, but a value of the protected field [cache]
    that a subclass can set. *)
Definition berry_with_zero : world Endpoint.t :=
  World {| Endpoint.resource := "berry"; Endpoint._list := None;
           Endpoint.cache := {[ PNum 1 := VPrim (PNum 0) ]} |} [].

(** A remote side that answers every request with a JSON error body, an
    object that has neither [id] nor [name]. *)
Definition not_found_body : jsval := obj [("detail", PStr "Not found.")].

Definition not_found_net : transport := λ _ _, Resolve not_found_body.

(** A remote side on which resource 1 is renamed after the first request. *)
Definition cheri_renamed : jsval := obj [("id", PNum 1); ("name", PStr "cheri-berry")].

Definition drifting_net : transport := λ log uri,
  if String.eqb uri "https://pokeapi.co/api/v2/berry/1" then
    match log with
    | [] => Resolve cheri
    | _ :: _ => Resolve cheri_renamed
    end
  else Reject (TransportFailure 404).



(** A remote side that spells the name of resource 1 with a capital. *)
Definition capital_cheri : jsval := obj [("id", PNum 1); ("name", PStr "Cheri")].

Definition capital_net : transport := λ _ uri,
  if String.eqb uri "https://pokeapi.co/api/v2/berry/1" then Resolve capital_cheri
  else Reject (TransportFailure 404).

(** ** Accounting of calls *)

(** The largest number of requests one call can issue. *)
Definition max_requests {P} (c : call P) : nat :=
  match c with
  | CGet _ | CCache _ => 0
  | CResolve _ | CFetch _ _ | CList _ _ => 1
  | CListAll _ => 2
  end.

(** The calls that can store a snapshot. *)
Definition stores_snapshot {P} (c : call P) : bool :=
  match c with
  | CListAll true => true
  | _ => false
  end.

(** The calls that never reach the transport once a snapshot is held. *)
Definition served_locally {P} (c : call P) : bool :=
  match c with
  | CGet _ | CList _ _ | CListAll _ | CCache _ => true
  | CResolve _ | CFetch _ _ => false
  end.

(** A call of [Endpoint] made on a [NamedEndpoint]: ids are passed as they
    are. *)
Definition as_named (c : call Z) : call NamedEndpointParam :=
  match c with
  | CGet param => CGet (Id param)
  | CResolve param => CResolve param
  | CFetch param flag => CFetch (Id param) flag
  | CList limit offset => CList limit offset
  | CListAll flag => CListAll flag
  | CCache data => CCache data
  end.

(** The inherited fields of a [NamedEndpoint], seen as an [Endpoint]. *)
Definition inherited (w : world NamedEndpoint.t) : world Endpoint.t :=
  World (NamedEndpoint.super (this w)) (log w).

(** A remote side that answers the request for resource 1 with the body of
    resource 2. *)
Definition chesto : jsval := obj [("id", PNum 2); ("name", PStr "chesto")].

Definition misrouted_net : transport := λ _ uri,
  if String.eqb uri "https://pokeapi.co/api/v2/berry/1" then Resolve chesto
  else Reject (TransportFailure 404).

(** A remote side that answers every request with the JSON value [null]. *)
Definition null_net : transport := λ _ _, Resolve (VPrim PNull).

(** A remote side whose listing bodies carry no [count]. *)
Definition countless_net : transport := λ _ uri,
  if String.eqb uri "https://pokeapi.co/api/v2/berry?limit=1" then
    Resolve (VObj ∅ (Some [item "cheri"]))
  else if String.eqb uri "https://pokeapi.co/api/v2/berry?limit=undefined" then
    Resolve (VObj ∅ (Some berries))
  else Reject (TransportFailure 404).

(** A [NamedEndpoint] that holds the berry listing as its snapshot. *)
Definition named_berry_with_snapshot : world NamedEndpoint.t :=
  World {| NamedEndpoint.super := this berry_with_snapshot;
           NamedEndpoint._nameMap := ∅ |} [].

(** ** Well-named bodies *)

(** The name of the body, when it has one, is ASCII text in lower case. *)
Definition lower_named (d : jsval) : Prop :=
  ∀ nm, get_prop d "name" = Ok (PStr nm) →
        ascii_text nm = true ∧ toLowerCase nm = nm.

(** Two bodies whose names differ by case at most have the same [id]. *)
Definition same_name_same_id (d d' : jsval) : Prop :=
  ∀ nm nm', get_prop d "name" = Ok (PStr nm) →
            get_prop d' "name" = Ok (PStr nm') →
            toLowerCase nm = toLowerCase nm' →
            get_prop d "id" = get_prop d' "id".

(** A remote side whose bodies are named in lower case, a name standing for
    one id. *)
Definition well_named (net : transport) : Prop :=
  (∀ lg u d, net lg u = Resolve d → lower_named d)
  ∧ (∀ lg u d lg' u' d', net lg u = Resolve d → net lg' u' = Resolve d' →
                         same_name_same_id d d').

(** The calls whose parameter is an id or a name of ASCII characters. *)
Definition ascii_call (c : call NamedEndpointParam) : bool :=
  match c with
  | CGet param | CFetch param _ => ascii_param param
  | _ => true
  end.

(** The calls that go through the transport or read only: all but
    [_cache]. *)
Definition not_cache_call {P} (c : call P) : bool :=
  match c with
  | CCache _ => false
  | _ => true
  end.

(** A remote side that serves the berry [cheri] under its id and its name,
    and nothing else. *)
Definition cheri_net : transport := λ _ uri,
  if String.eqb uri "https://pokeapi.co/api/v2/berry/1" then Resolve cheri
  else if String.eqb uri "https://pokeapi.co/api/v2/berry/cheri" then Resolve cheri
  else Reject (TransportFailure 404).

(** ** Checks of the definitions on concrete inputs *)

Example slice_ex1 : slice [1; 2; 3; 4; 5] 1 3 = [2; 3].
Proof. reflexivity. Qed.
Example slice_ex2 : slice [1; 2; 3; 4; 5] (-2) 10 = [4; 5].
Proof. reflexivity. Qed.
Example slice_ex3 : slice [1; 2; 3; 4; 5] 3 2 = [].
Proof. reflexivity. Qed.
Example to_string_ex : to_string (PNum 1302) = "1302" ∧ to_string (PNum (-5)) = "-5".
Proof. split; vm_compute; reflexivity. Qed.
Example lower_ex : toLowerCase "Ditto-2" = "ditto-2" ∧ toUpperCase "cheri" = "CHERI".
Proof. split; reflexivity. Qed.

Example berry_fetch :
  Endpoint.fetch berry_net 1 true (EndpointCalls.initial "berry")
  = (Ok cheri,
     World {| Endpoint.resource := "berry"; Endpoint._list := None;
              Endpoint.cache := {[ PNum 1 := cheri ]} |}
           ["https://pokeapi.co/api/v2/berry/1"]).
Proof. vm_compute. reflexivity. Qed.

Example uri_ex :
  limit_uri "berry" (PNum 1) = "https://pokeapi.co/api/v2/berry?limit=1"
  ∧ page_uri "berry" 10 5 = "https://pokeapi.co/api/v2/berry?limit=10&offset=5"
  ∧ resource_uri "berry" (PStr (toLowerCase "Ditto")) = "https://pokeapi.co/api/v2/berry/ditto".
Proof. repeat split; vm_compute; reflexivity. Qed.

(** ** Equations of the methods *)

Ltac unfold_m :=
  unfold resolve_with, void, after, result, bind, ret, throw, read, modify, lift, request in *.

Lemma get_prop_obj props elems key :
  get_prop (VObj props elems) key = Ok (default PUndef (props !! key)).
Proof. reflexivity. Qed.

(** A value with a numeric property is an object. *)
Lemma get_prop_num_truthy v key n : get_prop v key = Ok (PNum n) → truthy v = true.
Proof. destruct v as [[]|]; simpl; intros; congruence. Qed.

(** A property read throws nothing but a [TypeError]. *)
Lemma get_prop_throw v key e : get_prop v key = Throw e → e = TypeError.
Proof. destruct v as [[]|]; simpl; intros; congruence. Qed.

Lemma new_listing_literal c n p rs owner :
  new_ApiResourceList (listing_literal c n p rs) owner
  = Ok {| count := c; next := n; previous := p; results := Some rs; endpoint := owner |}.
Proof.
  unfold new_ApiResourceList, listing_literal. rewrite !get_prop_obj. simpl.
  by simplify_map_eq.
Qed.

Module EndpointFacts.
Import EndpointCalls.

Section with_net.
Variable net : transport.

Lemma cache_eq data w :
  Endpoint._cache data w
  = match get_prop data "id" with
    | Ok id =>
        (Ok tt, World (Endpoint.set_cache (<[id := data]> (Endpoint.cache (this w)))
                         (this w)) (log w))
    | Throw e => (Throw e, w)
    end.
Proof. unfold Endpoint._cache. unfold_m. by destruct (get_prop data "id"). Qed.

Lemma fetch_eq param flag w :
  Endpoint.fetch net param flag w
  = let uri := resource_uri (Endpoint.resource (this w)) (PNum param) in
    let w' := World (this w) (log w ++ [uri]) in
    match net (log w) uri with
    | Reject e => (Throw e, w')
    | Resolve data =>
        match get_prop data "id" with
        | Ok id =>
            (Ok data,
             World (Endpoint.set_cache (<[id := data]> (Endpoint.cache (this w)))
                      (this w)) (log w ++ [uri]))
        | Throw e => (Throw e, w')
        end
    end.
Proof.
  unfold Endpoint.fetch, Endpoint._cache. unfold_m. simpl.
  destruct (net _ _) as [data|e]; [|done].
  by destruct (get_prop data "id").
Qed.

Lemma get_eq param w :
  Endpoint.get param w = (Ok (Endpoint.cache_get (PNum param) (this w)), w).
Proof. reflexivity. Qed.

Lemma resolve_eq param w :
  Endpoint.resolve net param w
  = if truthy (Endpoint.cache_get (PNum param) (this w))
    then (Ok (Endpoint.cache_get (PNum param) (this w)), w)
    else Endpoint.fetch net param true w.
Proof.
  unfold Endpoint.resolve. unfold_m. rewrite get_eq.
  by destruct (truthy _).
Qed.

Lemma list_eq limit offset w :
  Endpoint.list net limit offset w
  = let r := Endpoint.resource (this w) in
    match Endpoint._list (this w) with
    | Some l =>
        match results l with
        | Some rs =>
            (Ok {| count := count l; next := next l; previous := previous l;
                   results := Some (slice rs offset limit); endpoint := r |}, w)
        | None => (Throw TypeError, w)
        end
    | None =>
        let uri := page_uri r limit offset in
        match net (log w) uri with
        | Reject e => (Throw e, World (this w) (log w ++ [uri]))
        | Resolve data => (new_ApiResourceList data r, World (this w) (log w ++ [uri]))
        end
    end.
Proof.
  unfold Endpoint.list. unfold_m. simpl.
  destruct (Endpoint._list (this w)) as [l|].
  - destruct (results l); [|done]. by rewrite new_listing_literal.
  - by destruct (net _ _).
Qed.

Lemma listAll_eq flag w :
  Endpoint.listAll net flag w
  = match Endpoint._list (this w) with
    | Some l => (Ok l, w)
    | None =>
        let r := Endpoint.resource (this w) in
        let u1 := limit_uri r (PNum 1) in
        let w1 := World (this w) (log w ++ [u1]) in
        match net (log w) u1 with
        | Reject e => (Throw e, w1)
        | Resolve body =>
            match get_prop body "count" with
            | Throw e => (Throw e, w1)
            | Ok c =>
                let u2 := limit_uri r c in
                let w2 := World (this w) ((log w ++ [u1]) ++ [u2]) in
                match net (log w ++ [u1])%list u2 with
                | Reject e => (Throw e, w2)
                | Resolve data =>
                    match new_ApiResourceList data r with
                    | Throw e => (Throw e, w2)
                    | Ok l =>
                        (Ok l,
                         World (if flag then Endpoint.set_list l (this w) else this w)
                               ((log w ++ [u1]) ++ [u2]))
                    end
                end
            end
        end
    end.
Proof.
  unfold Endpoint.listAll. unfold_m. simpl.
  destruct (Endpoint._list (this w)) as [l|]; [done|].
  destruct (net (log w) _) as [body|e]; [|done]. simpl.
  destruct (get_prop body "count") as [c|e]; [|done]. simpl.
  destruct (net (log w ++ _)%list _) as [data|e]; [|done].
  destruct (new_ApiResourceList data _) as [l|e]; [|done].
  by destruct flag.
Qed.

(** What one call does to the cache: nothing, or one [set] of a payload
    under its own [id]. *)
Lemma exec_cache c w :
  Endpoint.cache (this (after (exec net c) w)) = Endpoint.cache (this w)
  ∨ (writes c = true ∧ ∃ data id,
       get_prop data "id" = Ok id ∧
       Endpoint.cache (this (after (exec net c) w))
       = <[id := data]> (Endpoint.cache (this w))).
Proof.
  assert (Hfetch : ∀ param flag,
    Endpoint.cache (this (snd (Endpoint.fetch net param flag w))) = Endpoint.cache (this w)
    ∨ ∃ data id, get_prop data "id" = Ok id ∧
        Endpoint.cache (this (snd (Endpoint.fetch net param flag w)))
        = <[id := data]> (Endpoint.cache (this w))).
  { intros param flag. rewrite fetch_eq. simpl.
    destruct (net _ _) as [data|e]; [|by left].
    destruct (get_prop data "id") as [id|e] eqn:Hid; [|by left].
    right. by exists data, id. }
  destruct c as [param|param|param flag|limit offset|flag|data];
    unfold after, exec, void, bind.
  - left. by rewrite get_eq.
  - rewrite resolve_eq. destruct (truthy _); [by left|].
    destruct (Hfetch param true) as [H|H]; [left|right; split; [done|]];
      by destruct (Endpoint.fetch net param true w) as [[] ?].
  - destruct (Hfetch param flag) as [H|H]; [left|right; split; [done|]];
      by destruct (Endpoint.fetch net param flag w) as [[] ?].
  - left. rewrite list_eq. simpl.
    destruct (Endpoint._list (this w)) as [l|].
    + by destruct (results l).
    + destruct (net _ _) as [data|e]; [|done].
      by destruct (new_ApiResourceList data _).
  - left. rewrite listAll_eq. simpl.
    destruct (Endpoint._list (this w)) as [l|]; [done|].
    destruct (net (log w) _) as [body|e]; [|done].
    destruct (get_prop body "count") as [c|e]; [|done].
    destruct (net (log w ++ _)%list _) as [data|e]; [|done].
    destruct (new_ApiResourceList data _) as [l|e]; [|done].
    by destruct flag.
  - rewrite cache_eq. destruct (get_prop data "id") as [id|e] eqn:Hid; [|by left].
    right. split; [done|]. by exists data, id.
Qed.

Lemma reachable_keyed_by_id w : reachable net w → keyed_by_id w.
Proof.
  induction 1 as [resource|c w Hw IH]; intros k v.
  - simpl. by rewrite lookup_empty.
  - destruct (exec_cache c w) as [->|[_ (data & id & Hid & ->)]]; [apply IH|].
    rewrite lookup_insert. case_decide as Hk.
    + intros [= <-]. by subst.
    + apply IH.
Qed.

Lemma reachable_run cs w : reachable net w → reachable net (run net cs w).
Proof.
  revert w. induction cs as [|c cs IH]; intros w Hw; [done|].
  simpl. apply IH. by constructor.
Qed.

End with_net.
End EndpointFacts.

Module NamedEndpointFacts.
Import NamedEndpointCalls.

Section with_net.
Variable net : transport.

Lemma named_cache_eq data w :
  NamedEndpoint._cache data w
  = match get_prop data "id", get_prop data "name" with
    | Ok id, Ok name => (Ok tt, World (cached data id name (this w)) (log w))
    | _, _ => (Throw TypeError, w)
    end.
Proof.
  unfold NamedEndpoint._cache. unfold_m.
  by destruct data as [[]|].
Qed.

Lemma named_fetch_eq param flag w :
  NamedEndpoint.fetch net param flag w
  = let uri := resource_uri (NamedEndpoint.resource (this w)) (fetch_param param) in
    let w' := World (this w) (log w ++ [uri]) in
    match net (log w) uri with
    | Reject e => (Throw e, w')
    | Resolve data =>
        match get_prop data "id", get_prop data "name" with
        | Ok id, Ok name =>
            (Ok data, World (cached data id name (this w)) (log w ++ [uri]))
        | _, _ => (Throw TypeError, w')
        end
    end.
Proof.
  unfold NamedEndpoint.fetch. fold (fetch_param param).
  unfold bind at 1 2 3. unfold read at 1, request at 1. simpl.
  destruct (net _ _) as [data|e]; [|done].
  rewrite named_cache_eq. simpl.
  by destruct data as [[]|].
Qed.

Lemma named_get_eq param w :
  NamedEndpoint.get param w
  = (Ok (NamedEndpoint.cache_get (get_key param (this w)) (this w)), w).
Proof. reflexivity. Qed.

Lemma named_resolve_eq param w :
  NamedEndpoint.resolve net param w
  = if truthy (NamedEndpoint.cache_get (PNum param) (this w))
    then (Ok (NamedEndpoint.cache_get (PNum param) (this w)), w)
    else NamedEndpoint.fetch net (Id param) true w.
Proof.
  unfold NamedEndpoint.resolve. unfold_m. rewrite named_get_eq. simpl.
  by destruct (truthy _).
Qed.

Lemma named_list_eq limit offset w :
  NamedEndpoint.list net limit offset w
  = let r := NamedEndpoint.resource (this w) in
    match NamedEndpoint._list (this w) with
    | Some l =>
        match results l with
        | Some rs =>
            (Ok {| count := count l; next := next l; previous := previous l;
                   results := Some (slice rs offset limit); endpoint := r |}, w)
        | None => (Throw TypeError, w)
        end
    | None =>
        let uri := page_uri r limit offset in
        match net (log w) uri with
        | Reject e => (Throw e, World (this w) (log w ++ [uri]))
        | Resolve data => (new_ApiResourceList data r, World (this w) (log w ++ [uri]))
        end
    end.
Proof.
  unfold NamedEndpoint.list. unfold_m. simpl.
  destruct (NamedEndpoint._list (this w)) as [l|].
  - destruct (results l); [|done]. by rewrite new_listing_literal.
  - by destruct (net _ _).
Qed.

Lemma named_listAll_eq flag w :
  NamedEndpoint.listAll net flag w
  = match NamedEndpoint._list (this w) with
    | Some l => (Ok l, w)
    | None =>
        let r := NamedEndpoint.resource (this w) in
        let u1 := limit_uri r (PNum 1) in
        let w1 := World (this w) (log w ++ [u1]) in
        match net (log w) u1 with
        | Reject e => (Throw e, w1)
        | Resolve body =>
            match get_prop body "count" with
            | Throw e => (Throw e, w1)
            | Ok c =>
                let u2 := limit_uri r c in
                let w2 := World (this w) ((log w ++ [u1]) ++ [u2]) in
                match net (log w ++ [u1])%list u2 with
                | Reject e => (Throw e, w2)
                | Resolve data =>
                    match new_ApiResourceList data r with
                    | Throw e => (Throw e, w2)
                    | Ok l =>
                        (Ok l,
                         World (if flag then NamedEndpoint.set_list l (this w)
                                else this w)
                               ((log w ++ [u1]) ++ [u2]))
                    end
                end
            end
        end
    end.
Proof.
  unfold NamedEndpoint.listAll. unfold_m. simpl.
  destruct (NamedEndpoint._list (this w)) as [l|]; [done|].
  destruct (net (log w) _) as [body|e]; [|done]. simpl.
  destruct (get_prop body "count") as [c|e]; [|done]. simpl.
  destruct (net (log w ++ _)%list _) as [data|e]; [|done].
  destruct (new_ApiResourceList data _) as [l|e]; [|done].
  by destruct flag.
Qed.

(** [list] and [listAll] are overridden with the same bodies: they act on
    the inherited fields as the methods of [Endpoint] do. *)
Lemma named_list_on_super limit offset w :
  NamedEndpoint.list net limit offset w
  = on_super (Endpoint.list net limit offset) w.
Proof.
  rewrite named_list_eq. unfold on_super. rewrite EndpointFacts.list_eq. simpl.
  unfold NamedEndpoint._list, NamedEndpoint.resource.
  destruct w as [[e m] lg]; simpl.
  destruct (Endpoint._list e) as [l|].
  - by destruct (results l).
  - by destruct (net _ _).
Qed.

Lemma named_listAll_on_super flag w :
  NamedEndpoint.listAll net flag w
  = on_super (Endpoint.listAll net flag) w.
Proof.
  rewrite named_listAll_eq. unfold on_super. rewrite EndpointFacts.listAll_eq. simpl.
  unfold NamedEndpoint._list, NamedEndpoint.resource.
  destruct w as [[e m] lg]; simpl.
  destruct (Endpoint._list e) as [l|]; [done|].
  destruct (net lg _) as [body|err]; [|done].
  destruct (get_prop body "count") as [c|err]; [|done].
  destruct (net (lg ++ _)%list _) as [data|err]; [|done].
  destruct (new_ApiResourceList data _) as [l|err]; [|done].
  by destruct flag.
Qed.

Lemma named_exec_cache c w :
  NamedEndpoint.cache (this (after (exec net c) w)) = NamedEndpoint.cache (this w)
  ∨ (writes c = true ∧ ∃ data id,
       get_prop data "id" = Ok id ∧
       NamedEndpoint.cache (this (after (exec net c) w))
       = <[id := data]> (NamedEndpoint.cache (this w))).
Proof.
  assert (Hfetch : ∀ param flag,
    NamedEndpoint.cache (this (snd (NamedEndpoint.fetch net param flag w)))
    = NamedEndpoint.cache (this w)
    ∨ ∃ data id, get_prop data "id" = Ok id ∧
        NamedEndpoint.cache (this (snd (NamedEndpoint.fetch net param flag w)))
        = <[id := data]> (NamedEndpoint.cache (this w))).
  { intros param flag. rewrite named_fetch_eq. simpl.
    destruct (net _ _) as [data|e]; [|by left].
    destruct (get_prop data "id") as [id|e] eqn:Hid; [|by left].
    destruct (get_prop data "name") as [name|e]; [|by left].
    right. by exists data, id. }
  destruct c as [param|param|param flag|limit offset|flag|data];
    unfold after, exec, void, bind.
  - left. by rewrite named_get_eq.
  - rewrite named_resolve_eq. destruct (truthy _); [by left|].
    destruct (Hfetch (Id param) true) as [H|H]; [left|right; split; [done|]];
      by destruct (NamedEndpoint.fetch net (Id param) true w) as [[] ?].
  - destruct (Hfetch param flag) as [H|H]; [left|right; split; [done|]];
      by destruct (NamedEndpoint.fetch net param flag w) as [[] ?].
  - left. rewrite named_list_eq. simpl.
    destruct (NamedEndpoint._list (this w)) as [l|].
    + by destruct (results l).
    + destruct (net _ _) as [data|e]; [|done].
      by destruct (new_ApiResourceList data _).
  - left. rewrite named_listAll_eq. simpl.
    destruct (NamedEndpoint._list (this w)) as [l|]; [done|].
    destruct (net (log w) _) as [body|e]; [|done].
    destruct (get_prop body "count") as [c|e]; [|done].
    destruct (net (log w ++ _)%list _) as [data|e]; [|done].
    destruct (new_ApiResourceList data _) as [l|e]; [|done].
    by destruct flag.
  - rewrite named_cache_eq. destruct (get_prop data "id") as [id|e] eqn:Hid; [|by left].
    destruct (get_prop data "name") as [name|e]; [|by left].
    right. split; [done|]. by exists data, id.
Qed.

Lemma named_reachable_keyed_by_id w : reachable net w → keyed_by_id w.
Proof.
  induction 1 as [resource|c w Hw IH]; intros k v.
  - simpl. unfold NamedEndpoint.cache. simpl. by rewrite lookup_empty.
  - destruct (named_exec_cache c w) as [->|[_ (data & id & Hid & ->)]]; [apply IH|].
    rewrite lookup_insert. case_decide as Hk.
    + intros [= <-]. by subst.
    + apply IH.
Qed.

(** [resolve] is inherited: on a [NamedEndpoint] too it returns the value
    cached under the id when there is one, and fetches otherwise. *)
Lemma named_resolve_hit_or_fetch w id :
  reachable net w →
  (∀ v, NamedEndpoint.cache (this w) !! PNum id = Some v →
        NamedEndpoint.resolve net id w = (Ok v, w))
  ∧ (NamedEndpoint.cache (this w) !! PNum id = None →
     NamedEndpoint.resolve net id w = NamedEndpoint.fetch net (Id id) true w).
Proof.
  intros Hreach.
  split; intros; rewrite named_resolve_eq;
    unfold NamedEndpoint.cache_get, Endpoint.cache_get;
    unfold NamedEndpoint.cache in *.
  - rewrite H. simpl.
    pose proof (named_reachable_keyed_by_id w Hreach _ _ H) as Hid.
    by rewrite (get_prop_num_truthy _ _ _ Hid).
  - by rewrite H.
Qed.

(** The index stays in step with the cache when a body is cached whose name
    is in lower case and is not the name of a body cached under another
    id. *)
Lemma cached_keeps_names_indexed (e : NamedEndpoint.t) (data : jsval) (id name : prim) :
  names_indexed e →
  get_prop data "id" = Ok id →
  get_prop data "name" = Ok name →
  (∀ nm, name = PStr nm → toLowerCase nm = nm) →
  (∀ k r nm, NamedEndpoint.cache e !! k = Some r →
             get_prop r "name" = Ok (PStr nm) →
             name = PStr (toLowerCase nm) → k = id) →
  names_indexed (cached data id name e).
Proof.
  intros Hinv Hid Hname Hlower Hunique k r nm. unfold cached. simpl.
  unfold NamedEndpoint.cache. simpl.
  rewrite lookup_insert. case_decide as Hk.
  - intros [= <-] Hnm. rewrite Hname in Hnm. injection Hnm as ->.
    rewrite (Hlower nm eq_refl). subst. apply lookup_insert_eq.
  - intros Hr Hnm. rewrite lookup_insert. case_decide as Hkey.
    + f_equal. symmetry. by eapply Hunique.
    + by eapply Hinv.
Qed.

End with_net.
End NamedEndpointFacts.

(** ** The listing snapshot *)

(** C1. [listAll] returns the snapshot at once, with no request, when there
    is one.  When there is none and both requests succeed, it requests
    [limit=1], reads [count], requests [limit=count], and returns the listing
    built from the second body, which it stores as the snapshot when its flag
    is true; a second [listAll()] then returns the same listing and requests
    nothing, so that the two calls issue two requests.  [NamedEndpoint]
    overrides [listAll] with the same behaviour on the inherited fields. *)
Theorem listAll_snapshot_protocol (net : transport) (flag : bool) (w : world Endpoint.t)
    (body data : jsval) (c : prim) (l : ApiResourceList) :
  let r := Endpoint.resource (this w) in
  let u1 := limit_uri r (PNum 1) in
  let u2 := limit_uri r c in
  Endpoint._list (this w) = None →
  net (log w) u1 = Resolve body →
  get_prop body "count" = Ok c →
  net (log w ++ [u1])%list u2 = Resolve data →
  new_ApiResourceList data r = Ok l →
  let w1 := after (Endpoint.listAll net flag) w in
  Endpoint.listAll net flag w = (Ok l, w1)
  ∧ log w1 = (log w ++ [u1; u2])%list
  ∧ this w1 = (if flag then Endpoint.set_list l (this w) else this w)
  ∧ (flag = true →
     Endpoint._list (this w1) = Some l
     ∧ Endpoint.listAll net Endpoint.default_cache w1 = (Ok l, w1))
  ∧ (∀ flag' w' l', Endpoint._list (this w') = Some l' →
       Endpoint.listAll net flag' w' = (Ok l', w'))
  ∧ (∀ flag' wn, NamedEndpoint.listAll net flag' wn
       = NamedEndpointCalls.on_super (Endpoint.listAll net flag') wn).
Proof.
  intros r u1 u2 Hnone H1 Hc H2 Hl w1.
  assert (Hrun : Endpoint.listAll net flag w
                 = (Ok l, World (if flag then Endpoint.set_list l (this w) else this w)
                                (log w ++ [u1; u2]))).
  { rewrite EndpointFacts.listAll_eq, Hnone. simpl.
    fold r. fold u1. rewrite H1, Hc. fold u2. rewrite H2, Hl.
    by rewrite <- app_assoc. }
  assert (Hhit : ∀ flag' w' l', Endpoint._list (this w') = Some l' →
                   Endpoint.listAll net flag' w' = (Ok l', w')).
  { intros flag' w' l' Hsome. by rewrite EndpointFacts.listAll_eq, Hsome. }
  subst w1. unfold after. rewrite Hrun. simpl.
  split_and!; try done.
  - intros ->. split; [done|]. by apply Hhit.
  - intros flag' wn. apply NamedEndpointFacts.named_listAll_on_super.
Qed.

Lemma listAll_snapshot_protocol_witness :
  let w1 := after (Endpoint.listAll berry_net true) (EndpointCalls.initial "berry") in
  Endpoint.listAll berry_net true (EndpointCalls.initial "berry") = (Ok berry_listing, w1)
  ∧ log w1 = ["https://pokeapi.co/api/v2/berry?limit=1";
              "https://pokeapi.co/api/v2/berry?limit=3"]
  ∧ Endpoint.listAll berry_net true w1 = (Ok berry_listing, w1).
Proof.
  pose proof (listAll_snapshot_protocol berry_net true (EndpointCalls.initial "berry")
                (page 3 (PStr "https://pokeapi.co/api/v2/berry?offset=1&limit=1") PNull
                      [item "cheri"])
                (page 3 PNull PNull berries) (PNum 3) berry_listing) as H.
  simpl in H.
  destruct H as (Hfirst & Hlog & _ & Hflag & _).
  - reflexivity.
  - vm_compute. reflexivity.
  - vm_compute. reflexivity.
  - vm_compute. reflexivity.
  - vm_compute. reflexivity.
  - destruct (Hflag eq_refl) as [_ Hsecond].
    intros w1. split; [exact Hfirst|]. split; [|exact Hsecond].
    subst w1. rewrite Hlog. vm_compute. reflexivity.
Defined.

(** [slice] between two bounds that are not negative keeps the elements
    from the first bound up to, and without, the second. *)
Lemma slice_nonneg {A} (l : list A) (start end_ : Z) :
  0 ≤ start → 0 ≤ end_ →
  slice l start end_ = take (Z.to_nat (end_ - start)) (drop (Z.to_nat start) l).
Proof.
  intros Hs He. unfold slice.
  destruct (Z.ltb_spec start 0) as [?|_]; [lia|].
  destruct (Z.ltb_spec end_ 0) as [?|_]; [lia|].
  destruct (Z.le_gt_cases (Z.of_nat (length l)) start) as [Hout|Hin].
  - rewrite (Z.min_r start) by lia. rewrite !drop_ge by lia. by rewrite !take_nil.
  - rewrite (Z.min_l start) by lia.
    destruct (Z.le_gt_cases end_ (Z.of_nat (length l))) as [Hle|Hgt].
    + by rewrite (Z.min_l end_) by lia.
    + rewrite (Z.min_r end_) by lia.
      rewrite !take_ge; [done| |]; rewrite length_drop; lia.
Qed.

(** C5. With a snapshot, [list(limit, offset)] requests nothing and returns
    a listing whose [results] are [results.slice(offset, limit)] of the
    snapshot, the end of the slice being [limit] itself and not
    [offset + limit], and whose [count], [next] and [previous] are those of
    the snapshot.  [NamedEndpoint] overrides [list] with the same behaviour
    on the inherited fields. *)
Theorem list_slices_snapshot (net : transport) (limit offset : Z)
    (w : world Endpoint.t) (l : ApiResourceList) (rs : list jsval) :
  Endpoint._list (this w) = Some l →
  results l = Some rs →
  Endpoint.list net limit offset w
  = (Ok {| count := count l; next := next l; previous := previous l;
           results := Some (slice rs offset limit);
           endpoint := Endpoint.resource (this w) |}, w)
  ∧ (0 ≤ offset → 0 ≤ limit →
     slice rs offset limit
     = take (Z.to_nat (limit - offset)) (drop (Z.to_nat offset) rs))
  ∧ (∀ wn, NamedEndpoint.list net limit offset wn
       = NamedEndpointCalls.on_super (Endpoint.list net limit offset) wn).
Proof.
  intros Hsnap Hrs. split_and!.
  - by rewrite EndpointFacts.list_eq, Hsnap, Hrs.
  - apply slice_nonneg.
  - intros wn. apply NamedEndpointFacts.named_list_on_super.
Qed.

Lemma list_slices_snapshot_witness :
  Endpoint.list berry_net 2 1 berry_with_snapshot
  = (Ok {| count := PNum 3; next := PNull; previous := PNull;
           results := Some [item "chesto"]; endpoint := "berry" |},
     berry_with_snapshot).
Proof.
  destruct (list_slices_snapshot berry_net 2 1 berry_with_snapshot berry_listing berries)
    as (H & _ & _).
  - reflexivity.
  - reflexivity.
  - exact H.
Defined.

(** C6. When the first or the second request of [listAll] is rejected, the
    call throws the error the transport gave and the endpoint is left as it
    was: no snapshot is stored. *)
Theorem listAll_failure_keeps_state (net : transport) (flag : bool)
    (w : world Endpoint.t) (e : error) :
  let r := Endpoint.resource (this w) in
  let u1 := limit_uri r (PNum 1) in
  Endpoint._list (this w) = None →
  (net (log w) u1 = Reject e
   ∨ ∃ body c, net (log w) u1 = Resolve body
               ∧ get_prop body "count" = Ok c
               ∧ net (log w ++ [u1])%list (limit_uri r c) = Reject e) →
  result (Endpoint.listAll net flag) w = Throw e
  ∧ this (after (Endpoint.listAll net flag) w) = this w
  ∧ Endpoint._list (this (after (Endpoint.listAll net flag) w)) = None.
Proof.
  intros r u1 Hnone Hfail. unfold result, after.
  rewrite EndpointFacts.listAll_eq, Hnone. simpl. fold r. fold u1.
  destruct Hfail as [H1|(body & c & H1 & Hc & H2)].
  - by rewrite H1.
  - by rewrite H1, Hc, H2.
Qed.

Lemma listAll_failure_keeps_state_witness :
  result (Endpoint.listAll flaky_net true) (EndpointCalls.initial "berry")
  = Throw (TransportFailure 503)
  ∧ this (after (Endpoint.listAll flaky_net true) (EndpointCalls.initial "berry"))
    = Endpoint.new "berry".
Proof.
  destruct (listAll_failure_keeps_state flaky_net true (EndpointCalls.initial "berry")
              (TransportFailure 503)) as (H1 & H2 & _).
  - reflexivity.
  - right. exists (page 3 PNull PNull [item "cheri"]), (PNum 3).
    split_and!; vm_compute; reflexivity.
  - split; [exact H1 | exact H2].
Defined.

(** ** Resolving and fetching one resource *)

(** C2. In every state an endpoint reaches, [resolve(id)] returns the value
    cached under [id] and requests nothing when there is one, and is
    [fetch(id)] when there is none. *)
Theorem resolve_hit_or_fetch (net : transport) (w : world Endpoint.t) (id : Z) :
  EndpointCalls.reachable net w →
  (∀ v, Endpoint.cache (this w) !! PNum id = Some v →
        Endpoint.resolve net id w = (Ok v, w))
  ∧ (Endpoint.cache (this w) !! PNum id = None →
     Endpoint.resolve net id w = Endpoint.fetch net id Endpoint.default_cache w).
Proof.
  intros Hreach. split.
  - intros v Hv. rewrite EndpointFacts.resolve_eq. unfold Endpoint.cache_get.
    rewrite Hv. simpl.
    pose proof (EndpointFacts.reachable_keyed_by_id net w Hreach _ _ Hv) as Hid.
    by rewrite (get_prop_num_truthy _ _ _ Hid).
  - intros Hnone. rewrite EndpointFacts.resolve_eq. unfold Endpoint.cache_get.
    by rewrite Hnone.
Qed.

Lemma resolve_hit_or_fetch_witness :
  let w := after (EndpointCalls.exec berry_net (CFetch 1 true))
                 (EndpointCalls.initial "berry") in
  Endpoint.resolve berry_net 1 w = (Ok cheri, w)
  ∧ Endpoint.resolve berry_net 2 w = Endpoint.fetch berry_net 2 true w.
Proof.
  intros w.
  destruct (resolve_hit_or_fetch berry_net w 1) as [Hhit _].
  { apply EndpointCalls.reachable_call, EndpointCalls.reachable_new. }
  destruct (resolve_hit_or_fetch berry_net w 2) as [_ Hmiss].
  { apply EndpointCalls.reachable_call, EndpointCalls.reachable_new. }
  split.
  - apply Hhit. vm_compute. reflexivity.
  - apply Hmiss. vm_compute. reflexivity.
Defined.

Lemma app_singleton_ne {A} (l : list A) (x : A) : (l ++ [x])%list ≠ l.
Proof.
  intros H. apply (f_equal length) in H. rewrite length_app in H. simpl in H. lia.
Qed.

Lemma fetch_log (net : transport) (param : Z) (flag : bool) (w : world Endpoint.t) :
  log (after (Endpoint.fetch net param flag) w)
  = (log w ++ [resource_uri (Endpoint.resource (this w)) (PNum param)])%list.
Proof.
  unfold after. rewrite EndpointFacts.fetch_eq. simpl.
  destruct (net _ _) as [data|e]; [|done].
  by destruct (get_prop data "id").
Qed.

(** C10. [resolve] tests the cached value, not the presence of the key: when
    the value cached under [id] is falsy, [resolve(id)] is [fetch(id)], which
    issues a request; the cached value is returned, with no request, exactly
    when it is truthy. *)
Theorem resolve_tests_truthiness (net : transport) (w : world Endpoint.t)
    (id : Z) (v : jsval) :
  Endpoint.cache (this w) !! PNum id = Some v →
  (truthy v = false →
   Endpoint.resolve net id w = Endpoint.fetch net id true w
   ∧ log (after (Endpoint.resolve net id) w)
     = (log w ++ [resource_uri (Endpoint.resource (this w)) (PNum id)])%list)
  ∧ (truthy v = true → Endpoint.resolve net id w = (Ok v, w))
  ∧ (log (after (Endpoint.resolve net id) w) = log w ↔ truthy v = true).
Proof.
  intros Hv.
  assert (Hget : Endpoint.cache_get (PNum id) (this w) = v).
  { unfold Endpoint.cache_get. by rewrite Hv. }
  assert (Hfalsy : truthy v = false →
            Endpoint.resolve net id w = Endpoint.fetch net id true w).
  { intros Hf. by rewrite EndpointFacts.resolve_eq, Hget, Hf. }
  assert (Htruthy : truthy v = true → Endpoint.resolve net id w = (Ok v, w)).
  { intros Ht. by rewrite EndpointFacts.resolve_eq, Hget, Ht. }
  split_and!; try done.
  - intros Hf. split; [by apply Hfalsy|].
    unfold after. rewrite (Hfalsy Hf). apply fetch_log.
  - split.
    + intros Hlog. destruct (truthy v) eqn:Ht; [done|].
      unfold after in Hlog. rewrite (Hfalsy eq_refl) in Hlog.
      pose proof (fetch_log net id true w) as Hl. unfold after in Hl.
      rewrite Hl in Hlog. by apply app_singleton_ne in Hlog.
    + intros Ht. unfold after. by rewrite (Htruthy Ht).
Qed.

Lemma resolve_tests_truthiness_witness :
  Endpoint.cache (this berry_with_zero) !! PNum 1 = Some (VPrim (PNum 0))
  ∧ Endpoint.resolve berry_net 1 berry_with_zero
    = Endpoint.fetch berry_net 1 true berry_with_zero
  ∧ result (Endpoint.resolve berry_net 1) berry_with_zero = Ok cheri
  ∧ log (after (Endpoint.resolve berry_net 1) berry_with_zero)
    = ["https://pokeapi.co/api/v2/berry/1"].
Proof.
  assert (H0 : Endpoint.cache (this berry_with_zero) !! PNum 1 = Some (VPrim (PNum 0))).
  { vm_compute. reflexivity. }
  destruct (resolve_tests_truthiness berry_net berry_with_zero 1 (VPrim (PNum 0)) H0)
    as (Hfalsy & _ & _).
  destruct (Hfalsy eq_refl) as [Heq Hlog].
  split_and!.
  - exact H0.
  - exact Heq.
  - vm_compute. reflexivity.
  - rewrite Hlog. vm_compute. reflexivity.
Defined.

(** C4. A [fetch] whose request is answered with a body other than [null]
    and [undefined] returns that body and stores it in the cache under the
    [id] property of the body, whatever its flag is: the flag is not read.
    Conversely a [fetch] that returns a body has stored it so.  The same
    holds of [fetch] as [NamedEndpoint] overrides it, for an id and for a
    name. *)
Theorem fetch_caches_whatever_the_flag (net : transport) (flag : bool) :
  (∀ param w data id,
     let uri := resource_uri (Endpoint.resource (this w)) (PNum param) in
     net (log w) uri = Resolve data →
     get_prop data "id" = Ok id →
     Endpoint.fetch net param flag w
     = (Ok data,
        World (Endpoint.set_cache (<[id := data]> (Endpoint.cache (this w))) (this w))
              (log w ++ [uri])))
  ∧ (∀ param w data,
       result (Endpoint.fetch net param flag) w = Ok data →
       ∃ id, get_prop data "id" = Ok id
             ∧ Endpoint.cache (this (after (Endpoint.fetch net param flag) w))
               = <[id := data]> (Endpoint.cache (this w)))
  ∧ (∀ param w,
       Endpoint.fetch net param flag w = Endpoint.fetch net param (negb flag) w)
  ∧ (∀ nparam wn data id,
       let uri := resource_uri (NamedEndpoint.resource (this wn))
                               (NamedEndpointCalls.fetch_param nparam) in
       ascii_param nparam = true →
       net (log wn) uri = Resolve data →
       get_prop data "id" = Ok id →
       result (NamedEndpoint.fetch net nparam flag) wn = Ok data
       ∧ NamedEndpoint.cache (this (after (NamedEndpoint.fetch net nparam flag) wn))
         = <[id := data]> (NamedEndpoint.cache (this wn))
       ∧ log (after (NamedEndpoint.fetch net nparam flag) wn) = (log wn ++ [uri])%list)
  ∧ (∀ nparam wn ndata,
       result (NamedEndpoint.fetch net nparam flag) wn = Ok ndata →
       (∃ id, get_prop ndata "id" = Ok id
              ∧ NamedEndpoint.cache (this (after (NamedEndpoint.fetch net nparam flag) wn))
                = <[id := ndata]> (NamedEndpoint.cache (this wn)))
       ∧ NamedEndpoint.fetch net nparam flag wn
         = NamedEndpoint.fetch net nparam (negb flag) wn).
Proof.
  split_and!.
  - intros param w data id uri Hnet Hid.
    rewrite EndpointFacts.fetch_eq. simpl. fold uri. by rewrite Hnet, Hid.
  - intros param w data. unfold result, after. rewrite EndpointFacts.fetch_eq. simpl.
    destruct (net _ _) as [d|e]; [|done].
    destruct (get_prop d "id") as [id|e] eqn:Hid; [|done].
    simpl. intros [= <-]. by exists id.
  - intros param w. by rewrite !EndpointFacts.fetch_eq.
  - intros nparam wn data id uri _ Hnet Hid. unfold result, after.
    rewrite NamedEndpointFacts.named_fetch_eq. simpl. fold uri. rewrite Hnet, Hid.
    by destruct data as [[]|].
  - intros nparam wn ndata. unfold result, after.
    rewrite !NamedEndpointFacts.named_fetch_eq. simpl.
    destruct (net _ _) as [d|e]; [|done].
    destruct (get_prop d "id") as [id|e] eqn:Hid; [|done].
    destruct (get_prop d "name") as [name|e] eqn:Hname; [|done].
    simpl. intros [= <-]. split; [|done]. by exists id.
Qed.

Lemma fetch_caches_whatever_the_flag_witness :
  Endpoint.fetch berry_net 1 false (EndpointCalls.initial "berry")
  = (Ok cheri,
     World {| Endpoint.resource := "berry"; Endpoint._list := None;
              Endpoint.cache := {[ PNum 1 := cheri ]} |}
           ["https://pokeapi.co/api/v2/berry/1"])
  ∧ result (NamedEndpoint.fetch berry_net (Name "Cheri") false)
           (NamedEndpointCalls.initial "berry") = Ok cheri
  ∧ NamedEndpoint.cache
      (this (after (NamedEndpoint.fetch berry_net (Name "Cheri") false)
                   (NamedEndpointCalls.initial "berry")))
    = {[ PNum 1 := cheri ]}
  ∧ log (after (NamedEndpoint.fetch berry_net (Name "Cheri") false)
               (NamedEndpointCalls.initial "berry"))
    = ["https://pokeapi.co/api/v2/berry/cheri"].
Proof.
  destruct (fetch_caches_whatever_the_flag berry_net false) as (He & _ & _ & Hn & _).
  split.
  - rewrite (He 1 (EndpointCalls.initial "berry") cheri (PNum 1));
      vm_compute; reflexivity.
  - destruct (Hn (Name "Cheri") (NamedEndpointCalls.initial "berry") cheri (PNum 1))
      as (Hres & Hcache & Hlog).
    + reflexivity.
    + vm_compute. reflexivity.
    + vm_compute. reflexivity.
    + split_and!; [exact Hres | rewrite Hcache; reflexivity
                   | rewrite Hlog; vm_compute; reflexivity].
Defined.

(** ** Cache lookups *)

(** [get] is a lookup.  It returns without a request, leaves the
    endpoint as it was and does not throw.  On [Endpoint], and on
    [NamedEndpoint] for a number, it returns [undefined] when the cache has
    no such id.  On [NamedEndpoint] for a name that the name index does not
    hold, it returns what the cache holds under the key [undefined]: this is
    [undefined] when no body without an [id] has been cached. *)
Theorem get_is_a_lookup (param : Z) (w : world Endpoint.t)
    (nparam : NamedEndpointParam) (wn : world NamedEndpoint.t) :
  (∃ v, Endpoint.get param w = (Ok v, w)
        ∧ (Endpoint.cache (this w) !! PNum param = None → v = VPrim PUndef))
  ∧ (∃ v, NamedEndpoint.get nparam wn = (Ok v, wn)
          ∧ (∀ n, nparam = Id n →
                  NamedEndpoint.cache (this wn) !! PNum n = None → v = VPrim PUndef)
          ∧ (∀ s, nparam = Name s →
                  NamedEndpoint._nameMap (this wn) !! PStr (toLowerCase s) = None →
                  v = NamedEndpoint.cache_get PUndef (this wn)
                  ∧ (NamedEndpoint.cache (this wn) !! PUndef = None → v = VPrim PUndef))).
Proof.
  split.
  - eexists. split; [apply EndpointFacts.get_eq|].
    intros Hnone. unfold Endpoint.cache_get. by rewrite Hnone.
  - eexists. split; [apply NamedEndpointFacts.named_get_eq|]. split.
    + intros n -> Hnone. simpl.
      unfold NamedEndpoint.cache_get, Endpoint.cache_get.
      unfold NamedEndpoint.cache in Hnone. by rewrite Hnone.
    + intros s -> Hnone. simpl. unfold NamedEndpoint.nameMap_get. rewrite Hnone. simpl.
      split; [done|]. intros Hundef.
      unfold NamedEndpoint.cache_get, Endpoint.cache_get.
      unfold NamedEndpoint.cache in Hundef. by rewrite Hundef.
Qed.

(** C9 on a body without an [id].  The body [{ detail: "Not found." }]
    that a [fetch] was answered with is cached under the key [undefined];
    [get] of a name that the name index does not hold then looks the cache
    up under [undefined] and returns that body, where an unknown key is to
    give [undefined]. *)
Lemma get_unknown_name_returns_a_value :
  let w := after (NamedEndpoint.fetch not_found_net (Id 9999) true)
                 (NamedEndpointCalls.initial "berry") in
  NamedEndpoint._nameMap (this w) !! PStr (toLowerCase "unknown-name") = None
  ∧ NamedEndpoint.get (Name "unknown-name") w = (Ok not_found_body, w)
  ∧ not_found_body ≠ VPrim PUndef.
Proof.
  split_and!.
  - vm_compute. reflexivity.
  - vm_compute. reflexivity.
  - discriminate.
Qed.

(** ** Growth of the cache *)

(** C7, as the code has it.  An id that is in the cache stays in the cache
    through every sequence of calls.  The value under it is left alone by
    [get], [list] and [listAll]; a call of [resolve], [fetch] or [_cache]
    leaves it alone or replaces it by a body whose [id] is that id; and it
    is replaced by the body whenever a [fetch], a [resolve] that does not
    find a truthy value, or a [_cache] succeeds with a body of that id. *)
Theorem cache_keys_are_kept (net : transport) (w : world Endpoint.t)
    (k : prim) (v : jsval) :
  Endpoint.cache (this w) !! k = Some v →
  (∀ cs, is_Some (Endpoint.cache (this (EndpointCalls.run net cs w)) !! k))
  ∧ (∀ cs, forallb (λ c, negb (writes c)) cs = true →
           Endpoint.cache (this (EndpointCalls.run net cs w)) = Endpoint.cache (this w))
  ∧ (∀ c, Endpoint.cache (this (after (EndpointCalls.exec net c) w)) !! k = Some v
          ∨ (writes c = true
             ∧ ∃ data, get_prop data "id" = Ok k
                       ∧ Endpoint.cache (this (after (EndpointCalls.exec net c) w)) !! k
                         = Some data))
  ∧ (∀ param flag data,
       net (log w) (resource_uri (Endpoint.resource (this w)) (PNum param))
       = Resolve data →
       get_prop data "id" = Ok k →
       result (Endpoint.fetch net param flag) w = Ok data
       ∧ Endpoint.cache (this (after (Endpoint.fetch net param flag) w)) !! k
         = Some data)
  ∧ (∀ param data,
       truthy (Endpoint.cache_get (PNum param) (this w)) = false →
       net (log w) (resource_uri (Endpoint.resource (this w)) (PNum param))
       = Resolve data →
       get_prop data "id" = Ok k →
       result (Endpoint.resolve net param) w = Ok data
       ∧ Endpoint.cache (this (after (Endpoint.resolve net param) w)) !! k
         = Some data)
  ∧ (∀ data,
       get_prop data "id" = Ok k →
       result (Endpoint._cache data) w = Ok tt
       ∧ Endpoint.cache (this (after (Endpoint._cache data) w)) !! k = Some data).
Proof.
  intros Hv.
  assert (Hfetch : ∀ param flag data,
    net (log w) (resource_uri (Endpoint.resource (this w)) (PNum param))
    = Resolve data →
    get_prop data "id" = Ok k →
    result (Endpoint.fetch net param flag) w = Ok data
    ∧ Endpoint.cache (this (after (Endpoint.fetch net param flag) w)) !! k
      = Some data).
  { intros param flag data Hnet Hid. unfold result, after.
    rewrite EndpointFacts.fetch_eq. simpl. rewrite Hnet, Hid. simpl.
    by rewrite lookup_insert_eq. }
  split_and!; [| | |exact Hfetch| |].
  4: { intros param data Hfalsy Hnet Hid. unfold result, after.
       rewrite EndpointFacts.resolve_eq, Hfalsy. by apply Hfetch. }
  4: { intros data Hid. unfold result, after.
       rewrite EndpointFacts.cache_eq, Hid. simpl. by rewrite lookup_insert_eq. }
  - intros cs. assert (Hsome : is_Some (Endpoint.cache (this w) !! k)) by eauto.
    clear Hv Hfetch. revert w Hsome.
    induction cs as [|c cs IH]; intros w Hsome; simpl; [done|].
    apply IH.
    destruct (EndpointFacts.exec_cache net c w) as [->|[_ (data & id & _ & ->)]]; [done|].
    rewrite lookup_insert. by case_decide.
  - intros cs. clear Hv Hfetch. revert w.
    induction cs as [|c cs IH]; intros w Hcs; simpl; [done|].
    simpl in Hcs. apply andb_prop in Hcs as [Hc Hcs].
    rewrite (IH _ Hcs).
    destruct (EndpointFacts.exec_cache net c w) as [->|[Hw _]]; [done|].
    by rewrite Hw in Hc.
  - intros c.
    destruct (EndpointFacts.exec_cache net c w) as [->|[Hw (data & id & Hid & ->)]];
      [by left|].
    rewrite lookup_insert. case_decide as Hk.
    + right. split; [done|]. exists data. by subst.
    + by left.
Qed.

Lemma cache_keys_are_kept_witness :
  let w1 := after (EndpointCalls.exec drifting_net (CFetch 1 true))
                  (EndpointCalls.initial "berry") in
  Endpoint.cache (this w1) !! PNum 1 = Some cheri
  ∧ is_Some (Endpoint.cache
               (this (EndpointCalls.run drifting_net
                        [CList 20 0; CFetch 1 true; CResolve 2] w1)) !! PNum 1)
  ∧ Endpoint.cache (this (after (Endpoint.fetch drifting_net 1 true) w1)) !! PNum 1
    = Some cheri_renamed.
Proof.
  intros w1.
  assert (H1 : Endpoint.cache (this w1) !! PNum 1 = Some cheri).
  { vm_compute. reflexivity. }
  destruct (cache_keys_are_kept drifting_net w1 (PNum 1) cheri H1)
    as (Hkept & _ & _ & Hfetch & _).
  split_and!.
  - exact H1.
  - apply Hkept.
  - apply (Hfetch 1 true cheri_renamed); vm_compute; reflexivity.
Defined.

(** C7 as stated fails: a second [fetch] of the same id replaces the value
    cached by the first. *)
Lemma cached_value_is_replaced :
  let w1 := EndpointCalls.run drifting_net [CFetch 1 true] (EndpointCalls.initial "berry") in
  let w2 := EndpointCalls.run drifting_net [CFetch 1 true] w1 in
  Endpoint.cache (this w1) !! PNum 1 = Some cheri
  ∧ Endpoint.cache (this w2) !! PNum 1 = Some cheri_renamed
  ∧ cheri ≠ cheri_renamed.
Proof.
  split_and!.
  - vm_compute. reflexivity.
  - vm_compute. reflexivity.
  - intros H. apply (f_equal (λ v, get_prop v "name")) in H.
    vm_compute in H. discriminate.
Qed.

(** ** The name index *)




(** A name that is already in lower case is found again: after a [fetch]
    that succeeds with a body of that name, [get] of the name in any spelling
    that lower-cases to it returns the body. *)
Lemma fetch_then_get_by_name (net : transport) (param : NamedEndpointParam)
    (flag : bool) (wn : world NamedEndpoint.t) (data : jsval) (nm : string) :
  result (NamedEndpoint.fetch net param flag) wn = Ok data →
  get_prop data "name" = Ok (PStr nm) →
  toLowerCase nm = nm →
  ∀ s, toLowerCase s = nm →
       result (NamedEndpoint.get (Name s)) (after (NamedEndpoint.fetch net param flag) wn)
       = Ok data.
Proof.
  unfold result, after. rewrite NamedEndpointFacts.named_fetch_eq. simpl.
  destruct (net _ _) as [d|e]; [|done].
  destruct (get_prop d "id") as [id|e] eqn:Hid; [|done].
  destruct (get_prop d "name") as [name|e] eqn:Hname; [|done].
  simpl. intros [= <-] Hnm _ s Hs. rewrite Hname in Hnm. injection Hnm as ->.
  unfold NamedEndpoint.nameMap_get, NamedEndpoint.cache_get, Endpoint.cache_get. simpl.
  rewrite Hs. by rewrite !lookup_insert_eq.
Qed.

Lemma lower_upper_ascii (c : ascii) :
  lower_ascii c = c →
  lower_ascii (let n := nat_of_ascii c in
               if (Nat.leb 97 n && Nat.leb n 122)%bool then ascii_of_nat (n - 32) else c)
  = c.
Proof. destruct c as [[] [] [] [] [] [] [] []]; vm_compute; congruence. Qed.

(** Upper-casing a name that is in lower case and lower-casing it again
    gives the name back. *)
Lemma toLowerCase_toUpperCase (s : string) :
  toLowerCase s = s → toLowerCase (toUpperCase s) = s.
Proof.
  induction s as [|c s IH]; simpl; [done|].
  intros [= Hc Hs]. f_equal; [by apply lower_upper_ascii | by apply IH].
Qed.

(** C3 on a name with a capital.  The body [{ id: 1, name: "Cheri" }] is
    cached under 1 and indexed under ["Cheri"] as received; the index has
    nothing under ["cheri"], and [get] of the name, as received or in upper
    case, returns [undefined]. *)
Theorem capital_name_is_not_found :
  let w := after (NamedEndpoint.fetch capital_net (Id 1) true)
                 (NamedEndpointCalls.initial "berry") in
  result (NamedEndpoint.fetch capital_net (Id 1) true) (NamedEndpointCalls.initial "berry")
  = Ok capital_cheri
  ∧ NamedEndpoint.cache (this w) !! PNum 1 = Some capital_cheri
  ∧ get_prop capital_cheri "name" = Ok (PStr "Cheri")
  ∧ NamedEndpoint._nameMap (this w) !! PStr (toLowerCase "Cheri") = None
  ∧ NamedEndpoint._nameMap (this w) !! PStr "Cheri" = Some (PNum 1)
  ∧ result (NamedEndpoint.get (Name "Cheri")) w = Ok (VPrim PUndef)
  ∧ result (NamedEndpoint.get (Name (toUpperCase "Cheri"))) w = Ok (VPrim PUndef).
Proof. split_and!; vm_compute; reflexivity. Qed.

(** ** One call at a time *)

Module EndpointSteps.

Section with_net.
Variable net : transport.

(** What one call does to the endpoint: nothing, or the snapshot is stored
    where there was none, or one body is cached under its own [id]. *)
Lemma exec_this (c : call Z) (w : world Endpoint.t) :
  let w' := after (EndpointCalls.exec net c) w in
  this w' = this w
  ∨ (stores_snapshot c = true ∧ Endpoint._list (this w) = None
     ∧ ∃ l, this w' = Endpoint.set_list l (this w))
  ∨ (writes c = true ∧ ∃ data id,
       get_prop data "id" = Ok id
       ∧ this w' = Endpoint.set_cache (<[id := data]> (Endpoint.cache (this w))) (this w)).
Proof.
  cbv zeta.
  assert (Hfetch : ∀ param flag,
    this (snd (Endpoint.fetch net param flag w)) = this w
    ∨ ∃ data id, get_prop data "id" = Ok id ∧
        this (snd (Endpoint.fetch net param flag w))
        = Endpoint.set_cache (<[id := data]> (Endpoint.cache (this w))) (this w)).
  { intros param flag. rewrite EndpointFacts.fetch_eq. simpl.
    destruct (net _ _) as [data|e]; [|by left].
    destruct (get_prop data "id") as [id|e] eqn:Hid; [|by left].
    right. by exists data, id. }
  destruct c as [param|param|param flag|limit offset|flag|data];
    unfold after, EndpointCalls.exec, void, bind.
  - left. by rewrite EndpointFacts.get_eq.
  - rewrite EndpointFacts.resolve_eq. destruct (truthy _); [by left|].
    destruct (Hfetch param true) as [H|H]; [left|right; right; split; [done|]];
      by destruct (Endpoint.fetch net param true w) as [[] ?].
  - destruct (Hfetch param flag) as [H|H]; [left|right; right; split; [done|]];
      by destruct (Endpoint.fetch net param flag w) as [[] ?].
  - left. rewrite EndpointFacts.list_eq. simpl.
    destruct (Endpoint._list (this w)) as [l|].
    + by destruct (results l).
    + destruct (net _ _) as [data|e]; [|done].
      by destruct (new_ApiResourceList data _).
  - rewrite EndpointFacts.listAll_eq.
    destruct (Endpoint._list (this w)) as [l|] eqn:Hl; [by left|]. simpl.
    destruct (net (log w) _) as [body|e]; [|by left].
    destruct (get_prop body "count") as [c|e]; [|by left].
    destruct (net (log w ++ _)%list _) as [data|e]; [|by left].
    destruct (new_ApiResourceList data _) as [l|e]; [|by left].
    destruct flag; [|by left].
    right; left. split_and!; [done..|]. by exists l.
  - rewrite EndpointFacts.cache_eq.
    destruct (get_prop data "id") as [id|e] eqn:Hid; [|by left].
    right; right. split; [done|]. by exists data, id.
Qed.

(** What one call does to the log: it appends the requests it issued, which
    are no more than [max_requests]. *)
Lemma exec_log (c : call Z) (w : world Endpoint.t) :
  ∃ us, log (after (EndpointCalls.exec net c) w) = (log w ++ us)%list
        ∧ (length us ≤ max_requests c)%nat.
Proof.
  destruct c as [param|param|param flag|limit offset|flag|data];
    unfold after, EndpointCalls.exec, void, bind.
  - exists []. rewrite EndpointFacts.get_eq. simpl. split; [by rewrite app_nil_r|lia].
  - rewrite EndpointFacts.resolve_eq. destruct (truthy _).
    + exists []. simpl. split; [by rewrite app_nil_r|lia].
    + eexists [_]. split; [|simpl; lia].
      pose proof (fetch_log net param true w) as Hl. unfold after in Hl.
      destruct (Endpoint.fetch net param true w) as [[] ?]; exact Hl.
  - eexists [_]. split; [|simpl; lia].
    pose proof (fetch_log net param flag w) as Hl. unfold after in Hl.
    destruct (Endpoint.fetch net param flag w) as [[] ?]; exact Hl.
  - rewrite EndpointFacts.list_eq. simpl.
    destruct (Endpoint._list (this w)) as [l|].
    + exists []. split; [|simpl; lia]. rewrite app_nil_r. by destruct (results l).
    + eexists [_]. split; [|simpl; lia].
      destruct (net _ _) as [data|e]; [|done].
      by destruct (new_ApiResourceList data _).
  - rewrite EndpointFacts.listAll_eq.
    destruct (Endpoint._list (this w)) as [l|].
    { exists []. split; [|simpl; lia]. simpl. by rewrite app_nil_r. }
    simpl.
    destruct (net (log w) _) as [body|e]; [|eexists [_]; split; [done|simpl; lia]].
    destruct (get_prop body "count") as [c|e]; [|eexists [_]; split; [done|simpl; lia]].
    eexists [_; _]. split; [|simpl; lia].
    destruct (net (log w ++ _)%list _) as [data|e]; [|by rewrite <- app_assoc].
    destruct (new_ApiResourceList data _) as [l|e]; by rewrite <- app_assoc.
  - exists []. rewrite EndpointFacts.cache_eq, app_nil_r.
    split; [|simpl; lia]. by destruct (get_prop data "id").
Qed.

End with_net.
End EndpointSteps.

Module NamedEndpointSteps.
Import NamedEndpointCalls.

Section with_net.
Variable net : transport.

Lemma named_fetch_log (param : NamedEndpointParam) (flag : bool)
    (w : world NamedEndpoint.t) :
  log (after (NamedEndpoint.fetch net param flag) w)
  = (log w ++ [resource_uri (NamedEndpoint.resource (this w)) (fetch_param param)])%list.
Proof.
  unfold after. rewrite NamedEndpointFacts.named_fetch_eq. simpl.
  destruct (net _ _) as [data|e]; [|done].
  destruct (get_prop data "id"); [|done].
  by destruct (get_prop data "name").
Qed.

Lemma named_exec_this (c : call NamedEndpointParam) (w : world NamedEndpoint.t) :
  let w' := after (exec net c) w in
  this w' = this w
  ∨ (stores_snapshot c = true ∧ NamedEndpoint._list (this w) = None
     ∧ ∃ l, this w' = NamedEndpoint.set_list l (this w))
  ∨ (writes c = true ∧ ∃ data id name,
       get_prop data "id" = Ok id ∧ get_prop data "name" = Ok name
       ∧ this w' = cached data id name (this w)).
Proof.
  cbv zeta.
  assert (Hfetch : ∀ param flag,
    this (snd (NamedEndpoint.fetch net param flag w)) = this w
    ∨ ∃ data id name, get_prop data "id" = Ok id ∧ get_prop data "name" = Ok name ∧
        this (snd (NamedEndpoint.fetch net param flag w)) = cached data id name (this w)).
  { intros param flag. rewrite NamedEndpointFacts.named_fetch_eq. simpl.
    destruct (net _ _) as [data|e]; [|by left].
    destruct (get_prop data "id") as [id|e] eqn:Hid; [|by left].
    destruct (get_prop data "name") as [name|e] eqn:Hname; [|by left].
    right. by exists data, id, name. }
  destruct c as [param|param|param flag|limit offset|flag|data];
    unfold after, exec, void, bind.
  - left. by rewrite NamedEndpointFacts.named_get_eq.
  - rewrite NamedEndpointFacts.named_resolve_eq. destruct (truthy _); [by left|].
    destruct (Hfetch (Id param) true) as [H|H]; [left|right; right; split; [done|]];
      by destruct (NamedEndpoint.fetch net (Id param) true w) as [[] ?].
  - destruct (Hfetch param flag) as [H|H]; [left|right; right; split; [done|]];
      by destruct (NamedEndpoint.fetch net param flag w) as [[] ?].
  - left. rewrite NamedEndpointFacts.named_list_eq. simpl.
    destruct (NamedEndpoint._list (this w)) as [l|].
    + by destruct (results l).
    + destruct (net _ _) as [data|e]; [|done].
      by destruct (new_ApiResourceList data _).
  - rewrite NamedEndpointFacts.named_listAll_eq.
    destruct (NamedEndpoint._list (this w)) as [l|] eqn:Hl; [by left|]. simpl.
    destruct (net (log w) _) as [body|e]; [|by left].
    destruct (get_prop body "count") as [c|e]; [|by left].
    destruct (net (log w ++ _)%list _) as [data|e]; [|by left].
    destruct (new_ApiResourceList data _) as [l|e]; [|by left].
    destruct flag; [|by left].
    right; left. split_and!; [done..|]. by exists l.
  - rewrite NamedEndpointFacts.named_cache_eq.
    destruct (get_prop data "id") as [id|e] eqn:Hid; [|by left].
    destruct (get_prop data "name") as [name|e] eqn:Hname; [|by left].
    right; right. split; [done|]. by exists data, id, name.
Qed.

Lemma named_exec_log (c : call NamedEndpointParam) (w : world NamedEndpoint.t) :
  ∃ us, log (after (exec net c) w) = (log w ++ us)%list
        ∧ (length us ≤ max_requests c)%nat.
Proof.
  destruct c as [param|param|param flag|limit offset|flag|data];
    unfold after, exec, void, bind.
  - exists []. rewrite NamedEndpointFacts.named_get_eq. simpl.
    split; [by rewrite app_nil_r|lia].
  - rewrite NamedEndpointFacts.named_resolve_eq. destruct (truthy _).
    + exists []. simpl. split; [by rewrite app_nil_r|lia].
    + eexists [_]. split; [|simpl; lia].
      pose proof (named_fetch_log (Id param) true w) as Hl. unfold after in Hl.
      destruct (NamedEndpoint.fetch net (Id param) true w) as [[] ?]; exact Hl.
  - eexists [_]. split; [|simpl; lia].
    pose proof (named_fetch_log param flag w) as Hl. unfold after in Hl.
    destruct (NamedEndpoint.fetch net param flag w) as [[] ?]; exact Hl.
  - rewrite NamedEndpointFacts.named_list_eq. simpl.
    destruct (NamedEndpoint._list (this w)) as [l|].
    + exists []. split; [|simpl; lia]. rewrite app_nil_r. by destruct (results l).
    + eexists [_]. split; [|simpl; lia].
      destruct (net _ _) as [data|e]; [|done].
      by destruct (new_ApiResourceList data _).
  - rewrite NamedEndpointFacts.named_listAll_eq.
    destruct (NamedEndpoint._list (this w)) as [l|].
    { exists []. split; [|simpl; lia]. simpl. by rewrite app_nil_r. }
    simpl.
    destruct (net (log w) _) as [body|e]; [|eexists [_]; split; [done|simpl; lia]].
    destruct (get_prop body "count") as [c|e]; [|eexists [_]; split; [done|simpl; lia]].
    eexists [_; _]. split; [|simpl; lia].
    destruct (net (log w ++ _)%list _) as [data|e]; [|by rewrite <- app_assoc].
    destruct (new_ApiResourceList data _) as [l|e]; by rewrite <- app_assoc.
  - exists []. rewrite NamedEndpointFacts.named_cache_eq, app_nil_r.
    split; [|simpl; lia].
    destruct (get_prop data "id"); [|done]. by destruct (get_prop data "name").
Qed.

End with_net.
End NamedEndpointSteps.

(** ** What sequences of calls keep *)

Lemma ep_exec_keeps_snapshot net c (w : world Endpoint.t) l :
  Endpoint._list (this w) = Some l →
  Endpoint._list (this (after (EndpointCalls.exec net c) w)) = Some l.
Proof.
  intros Hl.
  destruct (EndpointSteps.exec_this net c w)
    as [->|[(_ & Hnone & _)|(_ & data & id & _ & ->)]]; [done| |done].
  by rewrite Hl in Hnone.
Qed.

Lemma nep_exec_keeps_snapshot net c (w : world NamedEndpoint.t) l :
  NamedEndpoint._list (this w) = Some l →
  NamedEndpoint._list (this (after (NamedEndpointCalls.exec net c) w)) = Some l.
Proof.
  intros Hl.
  destruct (NamedEndpointSteps.named_exec_this net c w)
    as [->|[(_ & Hnone & _)|(_ & data & id & name & _ & _ & ->)]]; [done| |done].
  by rewrite Hl in Hnone.
Qed.

(** X1. A snapshot, once held, is held unchanged through every sequence of
    calls, on [Endpoint] and on [NamedEndpoint]. *)
Theorem snapshot_is_kept (net : transport) (cs : list (call Z))
    (w : world Endpoint.t) (l : ApiResourceList) :
  Endpoint._list (this w) = Some l →
  Endpoint._list (this (EndpointCalls.run net cs w)) = Some l
  ∧ (∀ ncs wn, NamedEndpoint._list (this wn) = Some l →
               NamedEndpoint._list (this (NamedEndpointCalls.run net ncs wn)) = Some l).
Proof.
  intros Hl. split.
  - revert w Hl. induction cs as [|c cs IH]; intros w Hl; simpl; [done|].
    by apply IH, ep_exec_keeps_snapshot.
  - clear. intros ncs. induction ncs as [|c ncs IH]; intros wn Hl; simpl; [done|].
    by apply IH, nep_exec_keeps_snapshot.
Qed.

Lemma snapshot_is_kept_witness :
  Endpoint._list
    (this (EndpointCalls.run berry_net
             [CFetch 1 true; CListAll true; CList 2 0; CResolve 5; CCache cheri]
             berry_with_snapshot))
  = Some berry_listing.
Proof.
  destruct (snapshot_is_kept berry_net
              [CFetch 1 true; CListAll true; CList 2 0; CResolve 5; CCache cheri]
              berry_with_snapshot berry_listing) as [H _].
  - reflexivity.
  - exact H.
Defined.

Lemma ep_exec_local_log net c (w : world Endpoint.t) l :
  Endpoint._list (this w) = Some l → served_locally c = true →
  log (after (EndpointCalls.exec net c) w) = log w.
Proof.
  intros Hl Hc.
  destruct c as [param|param|param flag|limit offset|flag|data];
    try discriminate Hc; unfold after, EndpointCalls.exec, void, bind.
  - by rewrite EndpointFacts.get_eq.
  - rewrite EndpointFacts.list_eq, Hl. simpl. by destruct (results l).
  - by rewrite EndpointFacts.listAll_eq, Hl.
  - rewrite EndpointFacts.cache_eq. by destruct (get_prop data "id").
Qed.

Lemma nep_exec_local_log net c (w : world NamedEndpoint.t) l :
  NamedEndpoint._list (this w) = Some l → served_locally c = true →
  log (after (NamedEndpointCalls.exec net c) w) = log w.
Proof.
  intros Hl Hc.
  destruct c as [param|param|param flag|limit offset|flag|data];
    try discriminate Hc; unfold after, NamedEndpointCalls.exec, void, bind.
  - by rewrite NamedEndpointFacts.named_get_eq.
  - rewrite NamedEndpointFacts.named_list_eq, Hl. simpl. by destruct (results l).
  - by rewrite NamedEndpointFacts.named_listAll_eq, Hl.
  - rewrite NamedEndpointFacts.named_cache_eq.
    destruct (get_prop data "id"); [|done]. by destruct (get_prop data "name").
Qed.

(** X2. Once a snapshot is held, no sequence of [get], [list], [listAll] and
    [_cache] calls issues a request: only [fetch], and [resolve] on a miss,
    still reach the transport. *)
Theorem snapshot_serves_listings_locally (net : transport) (cs : list (call Z))
    (w : world Endpoint.t) (l : ApiResourceList) :
  Endpoint._list (this w) = Some l →
  forallb served_locally cs = true →
  log (EndpointCalls.run net cs w) = log w
  ∧ (∀ ncs wn, NamedEndpoint._list (this wn) = Some l →
               forallb served_locally ncs = true →
               log (NamedEndpointCalls.run net ncs wn) = log wn).
Proof.
  intros Hl Hcs. split.
  - revert w Hl Hcs. induction cs as [|c cs IH]; intros w Hl Hcs; simpl; [done|].
    simpl in Hcs. apply andb_prop in Hcs as [Hc Hcs].
    rewrite IH; [by eapply ep_exec_local_log|by apply ep_exec_keeps_snapshot|done].
  - clear. intros ncs. induction ncs as [|c ncs IH]; intros wn Hl Hcs; simpl; [done|].
    simpl in Hcs. apply andb_prop in Hcs as [Hc Hcs].
    rewrite IH; [by eapply nep_exec_local_log|by apply nep_exec_keeps_snapshot|done].
Qed.

Lemma snapshot_serves_listings_locally_witness :
  log (EndpointCalls.run flaky_net
         [CList 2 0; CListAll false; CGet 1; CList 20 20; CListAll true]
         berry_with_snapshot) = [].
Proof.
  destruct (snapshot_serves_listings_locally flaky_net
              [CList 2 0; CListAll false; CGet 1; CList 20 20; CListAll true]
              berry_with_snapshot berry_listing) as [H _].
  - reflexivity.
  - reflexivity.
  - exact H.
Defined.

(** X3. The resource category of an endpoint never changes, and an endpoint
    without a snapshot stays without one through every sequence of calls
    that has no [listAll] with a true flag. *)
Theorem only_listAll_stores_a_snapshot (net : transport) (cs : list (call Z))
    (w : world Endpoint.t) :
  Endpoint._list (this w) = None →
  forallb (λ c, negb (stores_snapshot c)) cs = true →
  Endpoint._list (this (EndpointCalls.run net cs w)) = None
  ∧ (∀ cs', Endpoint.resource (this (EndpointCalls.run net cs' w))
            = Endpoint.resource (this w)).
Proof.
  intros Hl Hcs. split.
  - revert w Hl Hcs. induction cs as [|c cs IH]; intros w Hl Hcs; simpl; [done|].
    simpl in Hcs. apply andb_prop in Hcs as [Hc Hcs].
    apply IH; [|done].
    destruct (EndpointSteps.exec_this net c w)
      as [->|[(Hs & _)|(_ & data & id & _ & ->)]]; [done| |done].
    by rewrite Hs in Hc.
  - clear. intros cs'. revert w. induction cs' as [|c cs' IH]; intros w; simpl; [done|].
    rewrite IH.
    by destruct (EndpointSteps.exec_this net c w)
      as [->|[(_ & _ & l & ->)|(_ & data & id & _ & ->)]].
Qed.

Lemma only_listAll_stores_a_snapshot_witness :
  Endpoint._list
    (this (EndpointCalls.run berry_net
             [CListAll false; CList 2 0; CFetch 1 true; CResolve 1]
             (EndpointCalls.initial "berry"))) = None.
Proof.
  destruct (only_listAll_stores_a_snapshot berry_net
              [CListAll false; CList 2 0; CFetch 1 true; CResolve 1]
              (EndpointCalls.initial "berry")) as [H _].
  - reflexivity.
  - reflexivity.
  - exact H.
Defined.

(** X4. A sequence of calls only appends to the log of requests, and appends
    no more than [get]: 0, [_cache]: 0, [resolve]: 1, [fetch]: 1, [list]: 1
    and [listAll]: 2 requests for each call. *)
Theorem requests_are_bounded (net : transport) (cs : list (call Z))
    (w : world Endpoint.t) :
  (∃ us, log (EndpointCalls.run net cs w) = (log w ++ us)%list
         ∧ (length us ≤ sum_list (max_requests <$> cs))%nat)
  ∧ (∀ ncs wn, ∃ us, log (NamedEndpointCalls.run net ncs wn) = (log wn ++ us)%list
                     ∧ (length us ≤ sum_list (max_requests <$> ncs))%nat).
Proof.
  split.
  - revert w. induction cs as [|c cs IH]; intros w; simpl.
    + exists []. split; [by rewrite app_nil_r|done].
    + destruct (EndpointSteps.exec_log net c w) as (us & Hus & Hn).
      destruct (IH (after (EndpointCalls.exec net c) w)) as (us' & Hus' & Hn').
      exists (us ++ us')%list. rewrite Hus', Hus, length_app, app_assoc.
      split; [done|]. unfold fmap in Hn'. lia.
  - intros ncs. induction ncs as [|c ncs IH]; intros wn; simpl.
    + exists []. split; [by rewrite app_nil_r|done].
    + destruct (NamedEndpointSteps.named_exec_log net c wn) as (us & Hus & Hn).
      destruct (IH (after (NamedEndpointCalls.exec net c) wn)) as (us' & Hus' & Hn').
      exists (us ++ us')%list. rewrite Hus', Hus, length_app, app_assoc.
      split; [done|]. unfold fmap in Hn'. lia.
Qed.

(** ** What the cache and the name index hold *)

(** X5. In every state an endpoint reaches, a cached value has, as its [id],
    the key it is cached under; the values cached under numbers are
    therefore objects, and the cache holds neither [null] nor [undefined].
    The same holds on a [NamedEndpoint]. *)
Theorem cached_bodies_sit_under_their_id (net : transport) (w : world Endpoint.t)
    (k : prim) (v : jsval) :
  EndpointCalls.reachable net w →
  Endpoint.cache (this w) !! k = Some v →
  (get_prop v "id" = Ok k
   ∧ (∀ n, k = PNum n → truthy v = true)
   ∧ v ≠ VPrim PNull ∧ v ≠ VPrim PUndef)
  ∧ (∀ wn k' v', NamedEndpointCalls.reachable net wn →
                 NamedEndpoint.cache (this wn) !! k' = Some v' →
                 get_prop v' "id" = Ok k'
                 ∧ (∀ n, k' = PNum n → truthy v' = true)
                 ∧ v' ≠ VPrim PNull ∧ v' ≠ VPrim PUndef).
Proof.
  assert (Haux : ∀ k v, get_prop v "id" = Ok k →
            get_prop v "id" = Ok k ∧ (∀ n, k = PNum n → truthy v = true)
            ∧ v ≠ VPrim PNull ∧ v ≠ VPrim PUndef).
  { intros k0 v0 Hid. split_and!; [done| | |].
    - intros n ->. by eapply get_prop_num_truthy.
    - by intros ->.
    - by intros ->. }
  intros Hreach Hv. split.
  - apply Haux. by eapply EndpointFacts.reachable_keyed_by_id.
  - intros wn k' v' Hreach' Hv'. apply Haux.
    by eapply NamedEndpointFacts.named_reachable_keyed_by_id.
Qed.

Lemma cached_bodies_sit_under_their_id_witness :
  get_prop chesto "id" = Ok (PNum 2) ∧ truthy chesto = true.
Proof.
  destruct (cached_bodies_sit_under_their_id misrouted_net
              (after (EndpointCalls.exec misrouted_net (CFetch 1 true))
                     (EndpointCalls.initial "berry"))
              (PNum 2) chesto) as [(Hid & Ht & _) _].
  - apply EndpointCalls.reachable_call, EndpointCalls.reachable_new.
  - vm_compute. reflexivity.
  - split; [exact Hid | exact (Ht 2 eq_refl)].
Defined.

(** X6. In every state a [NamedEndpoint] reaches, the id the name index
    holds for a name is a key of the cache, and the body cached there has
    that id: [get] of an indexed name never comes back empty-handed. *)
Theorem indexed_names_are_cached (net : transport) (w : world NamedEndpoint.t)
    (name id : prim) :
  NamedEndpointCalls.reachable net w →
  NamedEndpoint._nameMap (this w) !! name = Some id →
  ∃ r, NamedEndpoint.cache (this w) !! id = Some r
       ∧ get_prop r "id" = Ok id
       ∧ (∀ s, name = PStr (toLowerCase s) →
               NamedEndpoint.get (Name s) w = (Ok r, w)).
Proof.
  intros Hreach Hname.
  assert (Hcached : ∃ r, NamedEndpoint.cache (this w) !! id = Some r
                         ∧ get_prop r "id" = Ok id).
  { revert name id Hname.
    induction Hreach as [resource|c w Hw IH]; intros name id.
    - simpl. by rewrite lookup_empty.
    - destruct (NamedEndpointSteps.named_exec_this net c w)
        as [->|[(_ & _ & l & ->)|(_ & data & id' & name' & Hid & _ & ->)]];
        [apply IH|apply IH|].
      unfold NamedEndpointCalls.cached, NamedEndpoint.cache. simpl.
      rewrite lookup_insert. case_decide as Hn.
      + intros [= <-]. exists data. by rewrite lookup_insert_eq.
      + intros Hold. destruct (IH _ _ Hold) as (r & Hr & Hrid).
        rewrite lookup_insert. case_decide as Hk.
        * exists data. by subst.
        * by exists r. }
  destruct Hcached as (r & Hr & Hrid). exists r. split_and!; [done..|].
  intros s ->. rewrite NamedEndpointFacts.named_get_eq. simpl.
  unfold NamedEndpoint.nameMap_get, NamedEndpoint.cache_get, Endpoint.cache_get.
  rewrite Hname. simpl. unfold NamedEndpoint.cache in Hr. by rewrite Hr.
Qed.

Lemma indexed_names_are_cached_witness :
  let w := after (NamedEndpointCalls.exec berry_net (CFetch (Name "Cheri") true))
                 (NamedEndpointCalls.initial "berry") in
  NamedEndpoint.get (Name "CHERI") w = (Ok cheri, w).
Proof.
  intros w.
  destruct (indexed_names_are_cached berry_net w (PStr "cheri") (PNum 1))
    as (r & Hr & _ & Hget).
  - apply NamedEndpointCalls.reachable_call, NamedEndpointCalls.reachable_new.
  - vm_compute. reflexivity.
  - assert (r = cheri) as ->.
    { vm_compute in Hr. by injection Hr as <-. }
    apply Hget. reflexivity.
Defined.

(** X7. On a [NamedEndpoint] neither the cache nor the name index ever loses
    a key, whatever the calls. *)
Theorem named_maps_only_grow (net : transport) (cs : list (call NamedEndpointParam))
    (w : world NamedEndpoint.t) :
  dom (NamedEndpoint.cache (this w))
    ⊆ dom (NamedEndpoint.cache (this (NamedEndpointCalls.run net cs w)))
  ∧ dom (NamedEndpoint._nameMap (this w))
    ⊆ dom (NamedEndpoint._nameMap (this (NamedEndpointCalls.run net cs w))).
Proof.
  revert w. induction cs as [|c cs IH]; intros w; simpl; [done|].
  destruct (IH (after (NamedEndpointCalls.exec net c) w)) as [Hc Hn].
  destruct (NamedEndpointSteps.named_exec_this net c w)
    as [Heq|[(_ & _ & l & Heq)|(_ & data & id & name & _ & _ & Heq)]];
    rewrite Heq in Hc, Hn; [done|done|].
  unfold NamedEndpointCalls.cached, NamedEndpoint.cache in *. simpl in *.
  rewrite dom_insert_L in Hc. rewrite dom_insert_L in Hn.
  split; intros x Hx; [apply Hc|apply Hn]; apply elem_of_union; by right.
Qed.

(** ** Fetching, then looking up *)

(** X8. What [resolve(id)] returned with the id asked for is cached: a
    second [resolve(id)], and [get(id)], return the same body and issue no
    request. *)
Theorem resolve_twice_requests_once (net : transport) (id : Z)
    (w : world Endpoint.t) (data : jsval) :
  result (Endpoint.resolve net id) w = Ok data →
  get_prop data "id" = Ok (PNum id) →
  let w1 := after (Endpoint.resolve net id) w in
  Endpoint.resolve net id w1 = (Ok data, w1)
  ∧ Endpoint.get id w1 = (Ok data, w1)
  ∧ (length (log w1) ≤ S (length (log w)))%nat.
Proof.
  intros Hres Hid w1.
  assert (Hget : Endpoint.cache_get (PNum id) (this w1) = data).
  { subst w1. revert Hres. unfold result, after.
    rewrite EndpointFacts.resolve_eq.
    destruct (truthy _) eqn:Ht; simpl; [by intros [= <-]|].
    rewrite EndpointFacts.fetch_eq. simpl.
    destruct (net _ _) as [d|e]; [|done].
    destruct (get_prop d "id") as [k|e] eqn:Hk; [|done].
    simpl. intros [= <-]. rewrite Hid in Hk. injection Hk as <-.
    unfold Endpoint.cache_get. simpl. by rewrite lookup_insert_eq. }
  split_and!.
  - rewrite EndpointFacts.resolve_eq, Hget.
    by rewrite (get_prop_num_truthy _ _ _ Hid).
  - by rewrite EndpointFacts.get_eq, Hget.
  - subst w1. unfold after. rewrite EndpointFacts.resolve_eq.
    destruct (truthy _); simpl; [lia|].
    pose proof (fetch_log net id true w) as Hl. unfold after in Hl.
    rewrite Hl, length_app. simpl. lia.
Qed.

Lemma resolve_twice_requests_once_witness :
  let w1 := after (Endpoint.resolve berry_net 1) (EndpointCalls.initial "berry") in
  Endpoint.resolve berry_net 1 w1 = (Ok cheri, w1)
  ∧ log w1 = ["https://pokeapi.co/api/v2/berry/1"].
Proof.
  intros w1.
  destruct (resolve_twice_requests_once berry_net 1 (EndpointCalls.initial "berry") cheri)
    as (H & _ & _).
  - vm_compute. reflexivity.
  - vm_compute. reflexivity.
  - split; [exact H|]. vm_compute. reflexivity.
Defined.

(** X9. A body is cached under its own [id], whatever id was asked for: a
    [fetch] that succeeds with a body of another id, or of none, changes
    nothing under the other ids, and when the id asked for was not cached it
    still is not, so that [resolve] of it goes to the transport again. *)
Theorem fetch_caches_under_the_body_id (net : transport) (param : Z) (flag : bool)
    (w : world Endpoint.t) (data : jsval) (k : prim) :
  result (Endpoint.fetch net param flag) w = Ok data →
  get_prop data "id" = Ok k →
  let w1 := after (Endpoint.fetch net param flag) w in
  Endpoint.cache (this w1) !! k = Some data
  ∧ (∀ k', k' ≠ k → Endpoint.cache (this w1) !! k' = Endpoint.cache (this w) !! k')
  ∧ (k ≠ PNum param → Endpoint.cache (this w) !! PNum param = None →
     Endpoint.get param w1 = (Ok (VPrim PUndef), w1)
     ∧ Endpoint.resolve net param w1 = Endpoint.fetch net param true w1).
Proof.
  intros Hres Hid w1.
  assert (Hcache : Endpoint.cache (this w1) = <[k := data]> (Endpoint.cache (this w))).
  { subst w1. revert Hres. unfold result, after.
    rewrite EndpointFacts.fetch_eq. simpl.
    destruct (net _ _) as [d|e]; [|done].
    destruct (get_prop d "id") as [k0|e] eqn:Hk; [|done].
    simpl. intros [= <-]. rewrite Hid in Hk. by injection Hk as <-. }
  split_and!.
  - by rewrite Hcache, lookup_insert_eq.
  - intros k' Hk'. by rewrite Hcache, lookup_insert_ne.
  - intros Hne Hnone.
    assert (Hmiss : Endpoint.cache_get (PNum param) (this w1) = VPrim PUndef).
    { unfold Endpoint.cache_get. by rewrite Hcache, lookup_insert_ne, Hnone. }
    split.
    + by rewrite EndpointFacts.get_eq, Hmiss.
    + by rewrite EndpointFacts.resolve_eq, Hmiss.
Qed.

Lemma fetch_caches_under_the_body_id_witness :
  let w1 := after (Endpoint.fetch misrouted_net 1 true) (EndpointCalls.initial "berry") in
  Endpoint.cache (this w1) !! PNum 2 = Some chesto
  ∧ Endpoint.get 1 w1 = (Ok (VPrim PUndef), w1).
Proof.
  intros w1.
  destruct (fetch_caches_under_the_body_id misrouted_net 1 true
              (EndpointCalls.initial "berry") chesto (PNum 2)) as (H1 & _ & H3).
  - vm_compute. reflexivity.
  - vm_compute. reflexivity.
  - split; [exact H1|]. apply H3; [discriminate|reflexivity].
Defined.

(** X10. A [fetch] issues one request, always.  When it throws, whether the
    request was rejected or the body was [null], the endpoint is left as it
    was, and the error is the one the transport gave or a [TypeError].  A
    [resolve] that throws has missed the cache and leaves the endpoint as it
    was: there is no fallback. *)
Theorem failed_fetch_changes_nothing (net : transport) (param : Z) (flag : bool)
    (w : world Endpoint.t) (e : error) :
  result (Endpoint.fetch net param flag) w = Throw e →
  let uri := resource_uri (Endpoint.resource (this w)) (PNum param) in
  Endpoint.fetch net param flag w = (Throw e, World (this w) (log w ++ [uri]))
  ∧ (net (log w) uri = Reject e
     ∨ (e = TypeError ∧ (net (log w) uri = Resolve (VPrim PNull)
                         ∨ net (log w) uri = Resolve (VPrim PUndef))))
  ∧ (∀ w', result (Endpoint.resolve net param) w' = Throw e →
           this (after (Endpoint.resolve net param) w') = this w'
           ∧ truthy (Endpoint.cache_get (PNum param) (this w')) = false).
Proof.
  intros Hres uri. split_and!.
  - revert Hres. unfold result. rewrite EndpointFacts.fetch_eq. simpl. fold uri.
    destruct (net _ _) as [d|e']; [|by intros [= ->]].
    destruct (get_prop d "id") as [k|e'] eqn:Hk; [done|by intros [= ->]].
  - revert Hres. unfold result. rewrite EndpointFacts.fetch_eq. simpl. fold uri.
    destruct (net _ _) as [d|e']; [|intros [= ->]; by left].
    destruct (get_prop d "id") as [k|e'] eqn:Hk; [done|].
    simpl. intros [= ->]. right.
    destruct d as [[]|]; simpl in Hk; try done; injection Hk as <-; eauto.
  - intros w'. unfold result, after. rewrite EndpointFacts.resolve_eq.
    destruct (truthy _); [done|].
    rewrite EndpointFacts.fetch_eq. simpl.
    destruct (net _ _) as [d|e']; [|done].
    by destruct (get_prop d "id").
Qed.

Lemma failed_fetch_changes_nothing_witness :
  Endpoint.fetch null_net 1 true (EndpointCalls.initial "berry")
  = (Throw TypeError,
     World (Endpoint.new "berry") ["https://pokeapi.co/api/v2/berry/1"]).
Proof.
  destruct (failed_fetch_changes_nothing null_net 1 true
              (EndpointCalls.initial "berry") TypeError) as (H & _ & _).
  - vm_compute. reflexivity.
  - rewrite H. vm_compute. reflexivity.
Defined.

(** X11. [_cache(data)] throws a [TypeError] and changes nothing when
    [data] is [null] or [undefined]; on every other value it succeeds,
    without a request.  On a [NamedEndpoint] the cache and the name index
    are then written together: neither is written alone. *)
Theorem cache_method_is_all_or_nothing (data : jsval) (w : world Endpoint.t)
    (wn : world NamedEndpoint.t) :
  (data = VPrim PNull ∨ data = VPrim PUndef →
   Endpoint._cache data w = (Throw TypeError, w)
   ∧ NamedEndpoint._cache data wn = (Throw TypeError, wn))
  ∧ (data ≠ VPrim PNull → data ≠ VPrim PUndef →
     ∃ id name,
       get_prop data "id" = Ok id ∧ get_prop data "name" = Ok name
       ∧ Endpoint._cache data w
         = (Ok tt, World (Endpoint.set_cache (<[id := data]> (Endpoint.cache (this w)))
                            (this w)) (log w))
       ∧ NamedEndpoint._cache data wn
         = (Ok tt, World (NamedEndpointCalls.cached data id name (this wn)) (log wn))).
Proof.
  rewrite EndpointFacts.cache_eq, NamedEndpointFacts.named_cache_eq. split.
  - by intros [-> | ->].
  - intros Hnull Hundef.
    destruct data as [[]|]; try congruence; simpl; do 2 eexists; split_and!; reflexivity.
Qed.

(** ** Listings *)

(** X12. [list] never changes the endpoint: it stores no snapshot and caches
    nothing.  Without a snapshot, [list(limit, offset)] issues exactly one
    request, for [?limit=..&offset=..]; it throws what the transport
    rejected the request with, and otherwise returns the listing made of the
    decoded body, with the count, the links and the results of that body. *)
Theorem list_without_snapshot (net : transport) (limit offset : Z)
    (w : world Endpoint.t) :
  Endpoint._list (this w) = None →
  let r := Endpoint.resource (this w) in
  let uri := page_uri r limit offset in
  let w1 := after (Endpoint.list net limit offset) w in
  w1 = World (this w) (log w ++ [uri])
  ∧ uri = BASE_URI ++ "/" ++ r ++ "?limit=" ++ pretty limit ++ "&offset=" ++ pretty offset
  ∧ (∀ e, net (log w) uri = Reject e →
          result (Endpoint.list net limit offset) w = Throw e)
  ∧ (∀ props elems, net (log w) uri = Resolve (VObj props elems) →
       result (Endpoint.list net limit offset) w
       = Ok {| count := default PUndef (props !! "count");
               next := default PUndef (props !! "next");
               previous := default PUndef (props !! "previous");
               results := elems; endpoint := r |})
  ∧ (∀ limit' offset' w',
       this (after (Endpoint.list net limit' offset') w') = this w')
  ∧ (∀ wn, NamedEndpoint._list (this wn) = None →
           after (NamedEndpoint.list net limit offset) wn
           = World (this wn)
               (log wn ++ [page_uri (NamedEndpoint.resource (this wn)) limit offset])).
Proof.
  intros Hnone r uri w1. subst w1. unfold after, result.
  rewrite EndpointFacts.list_eq, Hnone. simpl. fold r. fold uri.
  split_and!.
  - by destruct (net _ _).
  - done.
  - by intros e ->.
  - by intros props elems ->.
  - intros limit' offset' w'. rewrite EndpointFacts.list_eq. simpl.
    destruct (Endpoint._list (this w')) as [l|].
    + by destruct (results l).
    + by destruct (net _ _).
  - intros wn Hn. rewrite NamedEndpointFacts.named_list_eq, Hn. simpl.
    destruct wn as [[e m] lg]. simpl. by destruct (net _ _).
Qed.

Lemma list_without_snapshot_witness :
  after (Endpoint.list berry_net 10 5) (EndpointCalls.initial "berry")
  = World (Endpoint.new "berry") ["https://pokeapi.co/api/v2/berry?limit=10&offset=5"].
Proof.
  destruct (list_without_snapshot berry_net 10 5 (EndpointCalls.initial "berry"))
    as (H & _).
  - reflexivity.
  - rewrite H. vm_compute. reflexivity.
Defined.

(** X13. The page [list(limit, offset)] cuts out of a snapshot, for bounds
    that are not negative: it holds the items of the snapshot from position
    [offset] up to, and without, position [limit], in their order; it has
    [min(limit, n) - min(offset, n)] items, which is at most
    [limit - offset]; and it is empty as soon as [offset] reaches [limit]. *)
Theorem snapshot_page_shape (net : transport) (limit offset : Z)
    (w : world Endpoint.t) (l : ApiResourceList) (rs : list jsval) :
  Endpoint._list (this w) = Some l →
  results l = Some rs →
  0 ≤ offset → 0 ≤ limit →
  ∃ p page,
    result (Endpoint.list net limit offset) w = Ok p
    ∧ results p = Some page
    ∧ (∀ i : nat, page !! i
                  = if decide (offset + Z.of_nat i < limit) then rs !! (Z.to_nat offset + i)%nat
                    else None)
    ∧ Z.of_nat (length page)
      = Z.max 0 (Z.min limit (Z.of_nat (length rs)) - Z.min offset (Z.of_nat (length rs)))
    ∧ Z.of_nat (length page) ≤ Z.max 0 (limit - offset)
    ∧ (limit ≤ offset → page = [])
    ∧ (offset = 0 → page = take (Z.to_nat limit) rs).
Proof.
  intros Hl Hrs Ho Hlim. unfold result.
  rewrite EndpointFacts.list_eq, Hl, Hrs. simpl.
  eexists _, _. split; [reflexivity|]. split; [reflexivity|].
  rewrite (slice_nonneg rs offset limit Ho Hlim).
  assert (Hlen : Z.of_nat (length (take (Z.to_nat (limit - offset))
                                        (drop (Z.to_nat offset) rs)))
                 = Z.max 0 (Z.min limit (Z.of_nat (length rs))
                            - Z.min offset (Z.of_nat (length rs)))).
  { rewrite length_take, length_drop. lia. }
  split_and!.
  - intros i. case_decide as Hi.
    + rewrite lookup_take_lt by lia. by rewrite lookup_drop.
    + by rewrite lookup_take_ge by lia.
  - exact Hlen.
  - rewrite Hlen. lia.
  - intros Hle. replace (Z.to_nat (limit - offset)) with 0%nat by lia. done.
  - intros ->. simpl. by rewrite Z.sub_0_r.
Qed.

Lemma snapshot_page_shape_witness :
  ∃ p, result (Endpoint.list berry_net 2 2) berry_with_snapshot = Ok p
       ∧ results p = Some [].
Proof.
  destruct (snapshot_page_shape berry_net 2 2 berry_with_snapshot berry_listing berries)
    as (p & page & Hp & Hpage & _ & _ & _ & Hempty & _).
  - reflexivity.
  - reflexivity.
  - lia.
  - lia.
  - exists p. split; [exact Hp|]. rewrite Hpage. f_equal. apply Hempty. lia.
Defined.

(** X14. [listAll] on bodies of an unexpected shape.  When the first body
    is [null], it throws a [TypeError] after that one request and the
    endpoint is left as it was.  When the first body is an object without
    [count], the second request asks for [?limit=undefined]. *)
Theorem listAll_on_odd_bodies (net : transport) (flag : bool) (w : world Endpoint.t)
    (body : jsval) :
  Endpoint._list (this w) = None →
  let r := Endpoint.resource (this w) in
  let u1 := limit_uri r (PNum 1) in
  net (log w) u1 = Resolve body →
  (body = VPrim PNull ∨ body = VPrim PUndef →
   Endpoint.listAll net flag w = (Throw TypeError, World (this w) (log w ++ [u1])))
  ∧ (∀ props elems, body = VObj props elems → props !! "count" = None →
       log (after (Endpoint.listAll net flag) w)
       = (log w ++ [u1; (BASE_URI ++ "/" ++ r ++ "?limit=undefined")%string])%list).
Proof.
  intros Hnone r u1 Hbody.
  rewrite EndpointFacts.listAll_eq. unfold after.
  rewrite EndpointFacts.listAll_eq, Hnone. simpl. fold r. fold u1. rewrite Hbody.
  split.
  - by intros [-> | ->].
  - intros props elems -> Hcount. rewrite get_prop_obj, Hcount.
    change (default PUndef None) with PUndef. cbv beta iota.
    change (limit_uri r PUndef) with (BASE_URI ++ "/" ++ r ++ "?limit=undefined").
    destruct (net (log w ++ [u1])%list _) as [data|e]; [|by rewrite <- app_assoc].
    destruct (new_ApiResourceList data r); [destruct flag|]; by rewrite <- app_assoc.
Qed.

Lemma listAll_on_odd_bodies_witness :
  log (after (Endpoint.listAll countless_net true) (EndpointCalls.initial "berry"))
  = ["https://pokeapi.co/api/v2/berry?limit=1";
     "https://pokeapi.co/api/v2/berry?limit=undefined"].
Proof.
  destruct (listAll_on_odd_bodies countless_net true (EndpointCalls.initial "berry")
              (VObj ∅ (Some [item "cheri"]))) as [_ H].
  - reflexivity.
  - vm_compute. reflexivity.
  - rewrite (H ∅ (Some [item "cheri"]) eq_refl); [|reflexivity].
    vm_compute. reflexivity.
Defined.

(** ** Names *)

Lemma lower_ascii_idem (c : ascii) : lower_ascii (lower_ascii c) = lower_ascii c.
Proof. destruct c as [[] [] [] [] [] [] [] []]; reflexivity. Qed.

Lemma toLowerCase_idem (s : string) : toLowerCase (toLowerCase s) = toLowerCase s.
Proof.
  induction s as [|c s IH]; simpl; [done|]. by rewrite lower_ascii_idem, IH.
Qed.

Lemma toLowerCase_of_upper (s : string) : toLowerCase (toUpperCase s) = toLowerCase s.
Proof.
  induction s as [|c s IH]; simpl; [done|]. rewrite IH. f_equal.
  destruct c as [[] [] [] [] [] [] [] []]; reflexivity.
Qed.

(** X15. A name of ASCII characters is read without regard to case.  Two
    such spellings with the same lower-casing, such as a name and its
    upper-casing, are the same parameter to [get] and to [fetch]; the request
    of [fetch] carries the name in lower case. *)
Theorem name_parameters_ignore_case (net : transport) (flag : bool) (s s' : string)
    (w : world NamedEndpoint.t) :
  ascii_text s = true →
  ascii_text s' = true →
  toLowerCase s = toLowerCase s' →
  NamedEndpoint.get (Name s) w = NamedEndpoint.get (Name s') w
  ∧ NamedEndpoint.fetch net (Name s) flag w = NamedEndpoint.fetch net (Name s') flag w
  ∧ log (after (NamedEndpoint.fetch net (Name s) flag) w)
    = (log w ++ [resource_uri (NamedEndpoint.resource (this w))
                              (PStr (toLowerCase s'))])%list
  ∧ NamedEndpoint.get (Name (toUpperCase s)) w = NamedEndpoint.get (Name s) w
  ∧ NamedEndpoint.fetch net (Name (toUpperCase s)) flag w
    = NamedEndpoint.fetch net (Name s) flag w.
Proof.
  intros _ _ Hs. split_and!.
  - rewrite !NamedEndpointFacts.named_get_eq. simpl. by rewrite Hs.
  - rewrite !NamedEndpointFacts.named_fetch_eq. simpl. by rewrite Hs.
  - rewrite NamedEndpointSteps.named_fetch_log. simpl. by rewrite Hs.
  - rewrite !NamedEndpointFacts.named_get_eq. simpl. by rewrite toLowerCase_of_upper.
  - rewrite !NamedEndpointFacts.named_fetch_eq. simpl. by rewrite toLowerCase_of_upper.
Qed.

Lemma name_parameters_ignore_case_witness :
  log (after (NamedEndpoint.fetch berry_net (Name "Cheri") true)
             (NamedEndpointCalls.initial "berry"))
  = ["https://pokeapi.co/api/v2/berry/cheri"]
  ∧ NamedEndpoint.fetch berry_net (Name "Cheri") true (NamedEndpointCalls.initial "berry")
    = NamedEndpoint.fetch berry_net (Name "cHERI") true (NamedEndpointCalls.initial "berry").
Proof.
  destruct (name_parameters_ignore_case berry_net true "Cheri" "cHERI"
              (NamedEndpointCalls.initial "berry")) as (_ & Hfetch & Hlog & _).
  - reflexivity.
  - reflexivity.
  - reflexivity.
  - split; [|exact Hfetch]. rewrite Hlog. vm_compute. reflexivity.
Defined.

(** X16. After a [fetch], by id or by name, that succeeds with a body whose
    [id] is a number and whose [name] is ASCII text in lower case, the body
    is had without a request by [get] of its id, by [get] of its name in any
    ASCII spelling, and by [resolve] of its id. *)
Theorem name_and_id_reach_the_same_body (net : transport) (param : NamedEndpointParam)
    (flag : bool) (w : world NamedEndpoint.t) (data : jsval) (n : Z) (nm : string) :
  result (NamedEndpoint.fetch net param flag) w = Ok data →
  get_prop data "id" = Ok (PNum n) →
  get_prop data "name" = Ok (PStr nm) →
  ascii_text nm = true →
  toLowerCase nm = nm →
  let w1 := after (NamedEndpoint.fetch net param flag) w in
  NamedEndpoint.get (Id n) w1 = (Ok data, w1)
  ∧ (∀ s, ascii_text s = true → toLowerCase s = nm →
          NamedEndpoint.get (Name s) w1 = (Ok data, w1))
  ∧ NamedEndpoint.get (Name (toUpperCase nm)) w1 = (Ok data, w1)
  ∧ NamedEndpoint.resolve net n w1 = (Ok data, w1).
Proof.
  intros Hres Hid Hname _ Hlower w1.
  assert (Hthis : this w1 = NamedEndpointCalls.cached data (PNum n) (PStr nm) (this w)).
  { subst w1. revert Hres. unfold result, after.
    rewrite NamedEndpointFacts.named_fetch_eq. simpl.
    destruct (net _ _) as [d|e]; [|done].
    destruct (get_prop d "id") as [k|e] eqn:Hk; [|done].
    destruct (get_prop d "name") as [k'|e] eqn:Hk'; [|done].
    simpl. intros [= <-]. rewrite Hid in Hk. rewrite Hname in Hk'.
    injection Hk as <-. by injection Hk' as <-. }
  assert (Hbyid : NamedEndpoint.cache_get (PNum n) (this w1) = data).
  { rewrite Hthis. unfold NamedEndpoint.cache_get, Endpoint.cache_get. simpl.
    by rewrite lookup_insert_eq. }
  assert (Hbyname : ∀ s, toLowerCase s = nm →
                         NamedEndpoint.get (Name s) w1 = (Ok data, w1)).
  { intros s Hs. rewrite NamedEndpointFacts.named_get_eq. simpl.
    unfold NamedEndpoint.nameMap_get. rewrite Hs, Hthis. simpl.
    rewrite lookup_insert_eq. simpl. by rewrite <- Hthis, Hbyid. }
  split_and!.
  - by rewrite NamedEndpointFacts.named_get_eq; simpl; rewrite Hbyid.
  - intros s _. apply Hbyname.
  - apply Hbyname. by rewrite toLowerCase_of_upper.
  - rewrite NamedEndpointFacts.named_resolve_eq, Hbyid.
    by rewrite (get_prop_num_truthy _ _ _ Hid).
Qed.

Lemma name_and_id_reach_the_same_body_witness :
  let w1 := after (NamedEndpoint.fetch berry_net (Id 1) true)
                  (NamedEndpointCalls.initial "berry") in
  NamedEndpoint.get (Name "CHERI") w1 = (Ok cheri, w1)
  ∧ NamedEndpoint.resolve berry_net 1 w1 = (Ok cheri, w1).
Proof.
  intros w1.
  destruct (name_and_id_reach_the_same_body berry_net (Id 1) true
              (NamedEndpointCalls.initial "berry") cheri 1 "cheri")
    as (_ & Hname & _ & Hres).
  - vm_compute. reflexivity.
  - vm_compute. reflexivity.
  - vm_compute. reflexivity.
  - reflexivity.
  - reflexivity.
  - split; [apply Hname; reflexivity | exact Hres].
Defined.

Lemma named_exec_this_from_net (net : transport) (c : call NamedEndpointParam)
    (w : world NamedEndpoint.t) :
  not_cache_call c = true →
  let w' := after (NamedEndpointCalls.exec net c) w in
  this w' = this w
  ∨ (∃ l, this w' = NamedEndpoint.set_list l (this w))
  ∨ (∃ data id name lg u,
       net lg u = Resolve data
       ∧ get_prop data "id" = Ok id ∧ get_prop data "name" = Ok name
       ∧ this w' = NamedEndpointCalls.cached data id name (this w)).
Proof.
  intros Hc. cbv zeta.
  assert (Hfetch : ∀ param flag,
    this (snd (NamedEndpoint.fetch net param flag w)) = this w
    ∨ ∃ data id name lg u, net lg u = Resolve data ∧
        get_prop data "id" = Ok id ∧ get_prop data "name" = Ok name ∧
        this (snd (NamedEndpoint.fetch net param flag w))
        = NamedEndpointCalls.cached data id name (this w)).
  { intros param flag. rewrite NamedEndpointFacts.named_fetch_eq. simpl.
    destruct (net _ _) as [data|e] eqn:Hnet; [|by left].
    destruct (get_prop data "id") as [id|e] eqn:Hid; [|by left].
    destruct (get_prop data "name") as [name|e] eqn:Hname; [|by left].
    right. by eexists data, id, name, _, _. }
  destruct c as [param|param|param flag|limit offset|flag|data];
    try discriminate Hc; unfold after, NamedEndpointCalls.exec, void, bind.
  - left. by rewrite NamedEndpointFacts.named_get_eq.
  - rewrite NamedEndpointFacts.named_resolve_eq. destruct (truthy _); [by left|].
    destruct (Hfetch (Id param) true) as [H|H]; [left|right; right];
      by destruct (NamedEndpoint.fetch net (Id param) true w) as [[] ?].
  - destruct (Hfetch param flag) as [H|H]; [left|right; right];
      by destruct (NamedEndpoint.fetch net param flag w) as [[] ?].
  - destruct (NamedEndpointSteps.named_exec_this net (CList limit offset) w)
      as [H|[(Hs & _)|(Hw & _)]]; [by left|done|done].
  - destruct (NamedEndpointSteps.named_exec_this net (CListAll flag) w)
      as [H|[(_ & _ & l & H)|(Hw & _)]]; [by left| |done].
    right; left. by exists l.
Qed.

(** X17. The name index follows the cache when the remote side is
    well-named.  If every body it serves has for its name ASCII text in
    lower case, and no two bodies of different ids share a name, then after
    any calls other than [_cache], with ids or ASCII names, on a new
    [NamedEndpoint], every cached body with a name is indexed under that
    name, and [get] of the name in any ASCII spelling returns that body. *)
Theorem well_named_bodies_stay_indexed (net : transport)
    (cs : list (call NamedEndpointParam)) (resource : string) :
  well_named net →
  forallb not_cache_call cs = true →
  forallb ascii_call cs = true →
  let w := NamedEndpointCalls.run net cs (NamedEndpointCalls.initial resource) in
  NamedEndpointCalls.names_indexed (this w)
  ∧ (∀ k r nm s, NamedEndpoint.cache (this w) !! k = Some r →
                 get_prop r "name" = Ok (PStr nm) →
                 ascii_text s = true →
                 toLowerCase s = toLowerCase nm →
                 NamedEndpoint.get (Name s) w = (Ok r, w)).
Proof.
  intros [Hlower Hsame] Hcs _ w.
  set (inv := λ e : NamedEndpoint.t,
         NamedEndpointCalls.names_indexed e
         ∧ (∀ k r, NamedEndpoint.cache e !! k = Some r →
                   get_prop r "id" = Ok k ∧ ∃ lg u, net lg u = Resolve r)).
  assert (Hrun : ∀ cs0 w0, forallb not_cache_call cs0 = true → inv (this w0) →
                           inv (this (NamedEndpointCalls.run net cs0 w0))).
  { clear cs Hcs w. intros cs.
    induction cs as [|c cs IH]; intros w0 Hcs Hw0; simpl; [done|].
    simpl in Hcs. apply andb_prop in Hcs as [Hc Hcs].
    apply (IH _ Hcs).
    destruct (named_exec_this_from_net net c w0 Hc)
      as [->|[(l & ->)|(data & id & name & lg & u & Hnet & Hid & Hname & ->)]];
      [done|done|].
    destruct Hw0 as [Hidx Hfrom]. split.
    - apply NamedEndpointFacts.cached_keeps_names_indexed; [done..| |].
      + intros nm ->. by eapply (Hlower _ _ _ Hnet).
      + intros k r nm Hr Hrname ->.
        destruct (Hfrom _ _ Hr) as (Hrid & lg' & u' & Hnet').
        pose proof (proj2 (Hlower _ _ _ Hnet _ Hname)) as Hlow.
        pose proof (Hsame _ _ _ _ _ _ Hnet' Hnet _ _ Hrname Hname) as Heq.
        rewrite Hlow, Hrid, Hid in Heq.
        specialize (Heq eq_refl). by injection Heq.
    - intros k r. unfold NamedEndpointCalls.cached, NamedEndpoint.cache. simpl.
      rewrite lookup_insert. case_decide as Hk.
      + intros [= <-]. subst. eauto.
      + apply Hfrom. }
  assert (Hinit : inv (this (NamedEndpointCalls.initial resource))).
  { split; intros k r; unfold NamedEndpoint.cache; simpl; by rewrite lookup_empty. }
  destruct (Hrun cs _ Hcs Hinit) as [Hidx _]. fold w in Hidx.
  split; [exact Hidx|].
  intros k r nm s Hr Hname _ Hs.
  rewrite NamedEndpointFacts.named_get_eq. simpl.
  unfold NamedEndpoint.nameMap_get. rewrite Hs, (Hidx _ _ _ Hr Hname). simpl.
  unfold NamedEndpoint.cache_get, Endpoint.cache_get.
  unfold NamedEndpoint.cache in Hr. by rewrite Hr.
Qed.

Lemma cheri_net_well_named : well_named cheri_net.
Proof.
  assert (Hbody : ∀ lg u d, cheri_net lg u = Resolve d → d = cheri).
  { intros lg u d. unfold cheri_net.
    destruct (String.eqb u _); [by intros [= <-]|].
    destruct (String.eqb u _); [by intros [= <-]|done]. }
  split.
  - intros lg u d Hd nm. rewrite (Hbody _ _ _ Hd). intros Hnm.
    assert (nm = "cheri") as ->; [|by split].
    vm_compute in Hnm. by injection Hnm as <-.
  - intros lg u d lg' u' d' Hd Hd' nm nm' _ _ _.
    by rewrite (Hbody _ _ _ Hd), (Hbody _ _ _ Hd').
Defined.

Lemma well_named_bodies_stay_indexed_witness :
  let w := NamedEndpointCalls.run cheri_net
             [CFetch (Name "Cheri") true; CResolve 1; CFetch (Id 2) true]
             (NamedEndpointCalls.initial "berry") in
  NamedEndpoint.get (Name "CHERI") w = (Ok cheri, w).
Proof.
  intros w.
  destruct (well_named_bodies_stay_indexed cheri_net
              [CFetch (Name "Cheri") true; CResolve 1; CFetch (Id 2) true] "berry")
    as [_ Hget].
  - exact cheri_net_well_named.
  - reflexivity.
  - reflexivity.
  - apply (Hget (PNum 1) cheri "cheri" "CHERI"); vm_compute; reflexivity.
Defined.

(** ** NamedEndpoint as an Endpoint *)

Lemma void_after {S A} (m : M S A) (w : world S) : after (void m) w = after m w.
Proof. unfold after, void, bind, ret. by destruct (m w) as [[] ?]. Qed.

Lemma void_result {S A} (m : M S A) (w : world S) :
  result (void m) w = match result m w with Ok _ => Ok tt | Throw e => Throw e end.
Proof. unfold result, void, bind, ret. by destruct (m w) as [[] ?]. Qed.

Lemma on_super_inherited {A} (m : M Endpoint.t A) (w : world NamedEndpoint.t) :
  inherited (NamedEndpointCalls.on_super m w).2 = (m (inherited w)).2
  ∧ (NamedEndpointCalls.on_super m w).1 = (m (inherited w)).1.
Proof.
  unfold NamedEndpointCalls.on_super, inherited. simpl.
  by destruct (m _) as [o [e lg]].
Qed.

Lemma as_named_step (net : transport) (c : call Z) (w : world NamedEndpoint.t) :
  inherited (after (NamedEndpointCalls.exec net (as_named c)) w)
  = after (EndpointCalls.exec net c) (inherited w)
  ∧ result (NamedEndpointCalls.exec net (as_named c)) w
    = result (EndpointCalls.exec net c) (inherited w).
Proof.
  destruct c as [param|param|param flag|limit offset|flag|data]; simpl;
    rewrite ?void_after, ?void_result.
  - done.
  - unfold after, result.
    rewrite NamedEndpointFacts.named_resolve_eq, EndpointFacts.resolve_eq.
    unfold NamedEndpoint.cache_get. simpl.
    destruct (truthy _); [done|].
    rewrite NamedEndpointFacts.named_fetch_eq, EndpointFacts.fetch_eq. simpl.
    unfold NamedEndpoint.resource.
    destruct (net _ _) as [d|e]; [|done]. by destruct d as [[]|].
  - unfold after, result.
    rewrite NamedEndpointFacts.named_fetch_eq, EndpointFacts.fetch_eq. simpl.
    unfold NamedEndpoint.resource.
    destruct (net _ _) as [d|e]; [|done]. by destruct d as [[]|].
  - unfold after, result. rewrite NamedEndpointFacts.named_list_on_super.
    destruct (on_super_inherited (Endpoint.list net limit offset) w) as [-> ->]. done.
  - unfold after, result. rewrite NamedEndpointFacts.named_listAll_on_super.
    destruct (on_super_inherited (Endpoint.listAll net flag) w) as [-> ->]. done.
  - unfold after, result.
    rewrite NamedEndpointFacts.named_cache_eq, EndpointFacts.cache_eq.
    by destruct data as [[]|].
Qed.

(** X18. Called with ids only, a [NamedEndpoint] is an [Endpoint]: each call
    succeeds or throws as on an [Endpoint] in the state of the inherited
    fields, and through every sequence of calls the inherited fields and the
    log of requests are those the [Endpoint] would have. *)
Theorem named_endpoint_refines_endpoint (net : transport) (cs : list (call Z))
    (w : world NamedEndpoint.t) :
  inherited (NamedEndpointCalls.run net (as_named <$> cs) w)
  = EndpointCalls.run net cs (inherited w)
  ∧ (∀ c w', result (NamedEndpointCalls.exec net (as_named c)) w'
             = result (EndpointCalls.exec net c) (inherited w'))
  ∧ (∀ id w', result (NamedEndpoint.resolve net id) w'
              = result (Endpoint.resolve net id) (inherited w')
              ∧ result (NamedEndpoint.get (Id id)) w'
                = result (Endpoint.get id) (inherited w')).
Proof.
  split_and!.
  - revert w. induction cs as [|c cs IH]; intros w; [done|].
    rewrite fmap_cons. simpl. rewrite IH.
    by destruct (as_named_step net c w) as [-> _].
  - intros c w'. apply as_named_step.
  - intros id w'. split; [|done]. unfold result.
    rewrite NamedEndpointFacts.named_resolve_eq, EndpointFacts.resolve_eq.
    unfold NamedEndpoint.cache_get. simpl.
    destruct (truthy _); [done|].
    rewrite NamedEndpointFacts.named_fetch_eq, EndpointFacts.fetch_eq. simpl.
    unfold NamedEndpoint.resource.
    destruct (net _ _) as [d|e]; [|done]. by destruct d as [[]|].
Qed.

(** ** New endpoints *)

(** X19. An endpoint is constructed empty: [get] returns [undefined] for
    every id, and on a [NamedEndpoint] for every name; [resolve] fetches;
    [list] and [listAll] go to the transport. *)
Theorem new_endpoint_is_empty (net : transport) (resource : string) (id : Z)
    (param : NamedEndpointParam) :
  let w := EndpointCalls.initial resource in
  let wn := NamedEndpointCalls.initial resource in
  Endpoint.get id w = (Ok (VPrim PUndef), w)
  ∧ NamedEndpoint.get param wn = (Ok (VPrim PUndef), wn)
  ∧ Endpoint.resolve net id w = Endpoint.fetch net id true w
  ∧ NamedEndpoint.resolve net id wn = NamedEndpoint.fetch net (Id id) true wn
  ∧ (∀ limit offset, log (after (Endpoint.list net limit offset) w)
                     = [page_uri resource limit offset])
  ∧ (∀ flag, ∃ us, log (after (Endpoint.listAll net flag) w)
                   = (limit_uri resource (PNum 1) :: us)%list).
Proof.
  intros w wn. split_and!.
  - done.
  - by destruct param.
  - by rewrite EndpointFacts.resolve_eq.
  - by rewrite NamedEndpointFacts.named_resolve_eq.
  - intros limit offset. unfold after. rewrite EndpointFacts.list_eq. simpl.
    by destruct (net _ _).
  - intros flag. unfold after. rewrite EndpointFacts.listAll_eq. simpl.
    destruct (net [] _) as [body|e]; [|by eexists].
    destruct (get_prop body "count") as [c|e]; [|by eexists].
    destruct (net [_] _) as [data|e]; [|by eexists].
    destruct (new_ApiResourceList data _); by eexists.
Qed.
